(** * CityMap: the Paris map component (src/components/CityMap.tsx)

    A shallow embedding of the React component [CityMap] and of the part of
    the maplibre-gl and DOM interfaces it drives, followed by the properties
    of the marker rebuild, of the map lifecycle and of the filter bar.

    Conventions of the embedding.
    - Objects with identity (maps, markers, popups) carry a handle, a [nat]
      drawn from an allocator held in the [World].
    - What the mapping library shows on screen is the [World]: the maps that
      exist, the marker elements sitting in a map's container, the open
      popups, and the console.
    - Refs and [useState] cells are fields of [State]; a closure is the record
      of the variables it captured.
    - Coordinates are decimal literals that the component only passes along;
      they are kept as exact rationals. *)

From Stdlib Require Import List String Ascii Bool Arith ZArith QArith Lia.
From Stdlib Require Import DecimalString.
Import ListNotations.

Local Open Scope string_scope.
Local Open Scope list_scope.
Local Open Scope nat_scope.

(** String concatenation, kept apart from list append. *)
Local Infix "^^" := String.append (at level 60, right associativity).

(** The double quote character, as a one-character string. *)
Definition dquote : string := String (ascii_of_nat 34) EmptyString.

(** The line break of a template literal. *)
Definition nl : string := String (ascii_of_nat 10) EmptyString.

(** ** Data model *)

(** [type POICategory = 'all' | 'landmarks' | 'food' | 'art' | 'history' | 'culture'] *)
Inductive POICategory : Type :=
  | all | landmarks | food | art | history | culture.

(** The string a category value is at run time. *)
Definition category_string (c : POICategory) : string :=
  match c with
  | all => "all"
  | landmarks => "landmarks"
  | food => "food"
  | art => "art"
  | history => "history"
  | culture => "culture"
  end.

(** [===] on two category values. *)
Definition category_eqb (a b : POICategory) : bool :=
  match a, b with
  | all, all | landmarks, landmarks | food, food
  | art, art | history, history | culture, culture => true
  | _, _ => false
  end.

(** [[lng, lat]] *)
Definition LngLat : Type := (Q * Q)%type.

Record POI : Type := {
  id : string;
  name : string;
  category : POICategory;
  coordinates : LngLat;
  description : string
}.

Definition PARIS_POIS : list POI := [
  {| id := "1";
     name := "Eiffel Tower";
     category := landmarks;
     coordinates := (2.2945, 48.8584)%Q;
     description := "Iconic iron lattice tower and symbol of Paris" |};
  {| id := "2";
     name := "Louvre Museum";
     category := art;
     coordinates := (2.3376, 48.8606)%Q;
     description := "World's largest art museum and historic monument" |};
  {| id := "3";
     name := "Notre-Dame Cathedral";
     category := history;
     coordinates := (2.3499, 48.8530)%Q;
     description := "Medieval Catholic cathedral and Gothic architecture masterpiece" |};
  {| id := "4";
     name := "Sacré-Cœur Basilica";
     category := culture;
     coordinates := (2.3431, 48.8867)%Q;
     description := "Roman Catholic church and minor basilica in Montmartre" |};
  {| id := "5";
     name := "Le Comptoir du Relais";
     category := food;
     coordinates := (2.3387, 48.8532)%Q;
     description := "Traditional French bistro in Saint-Germain" |};
  {| id := "6";
     name := "Arc de Triomphe";
     category := landmarks;
     coordinates := (2.2950, 48.8738)%Q;
     description := "Monumental arch honoring fallen French soldiers" |};
  {| id := "7";
     name := "Musée d'Orsay";
     category := art;
     coordinates := (2.3266, 48.8600)%Q;
     description := "Museum housing world's finest collection of Impressionist art" |};
  {| id := "8";
     name := "L'As du Fallafel";
     category := food;
     coordinates := (2.3590, 48.8575)%Q;
     description := "Famous falafel restaurant in the Marais district" |}
].

Record CategoryEntry : Type := {
  entry_id : POICategory;
  label : string;
  icon : string
}.

Definition CATEGORIES : list CategoryEntry := [
  {| entry_id := all; label := "All"; icon := "🗺️" |};
  {| entry_id := landmarks; label := "Landmarks"; icon := "🏛️" |};
  {| entry_id := food; label := "Food"; icon := "🍽️" |};
  {| entry_id := art; label := "Art"; icon := "🎨" |};
  {| entry_id := history; label := "History"; icon := "⛪" |};
  {| entry_id := culture; label := "Culture"; icon := "🎭" |}
].


(** ** The mapping library and the DOM, as far as the component uses them *)

Module MapLibre.

(** [new maplibregl.Popup({ offset })] followed by [setHTML]. *)
Record Popup : Type := {
  popup_handle : nat;
  popup_offset : Z;
  popup_html : string
}.

Inductive EventType : Type := mouseenter | mouseleave | click.

(** The closures the component registers on a marker element, each with
    the variables it captured. *)
Inductive Listener : Type :=
  | SetTransform (value : string)
  | OpenPopup (popup : Popup) (poi : POI).

(** The [div] built for a marker. *)
Record Element : Type := {
  className : string;
  cssText : string;
  transform : string;
  innerHTML : string;
  listeners : list (EventType * Listener)
}.

Definition addEventListener (ty : EventType) (l : Listener) (el : Element) : Element :=
  {| className := className el;
     cssText := cssText el;
     transform := transform el;
     innerHTML := innerHTML el;
     listeners := listeners el ++ [(ty, l)] |}.

Record Marker : Type := {
  marker_handle : nat;
  marker_element : Element;
  marker_lngLat : option LngLat
}.

(** [new maplibregl.Marker(el)] at handle [h]. *)
Definition Marker_new (h : nat) (el : Element) : Marker :=
  {| marker_handle := h; marker_element := el; marker_lngLat := None |}.

Definition setLngLat (c : LngLat) (mk : Marker) : Marker :=
  {| marker_handle := marker_handle mk;
     marker_element := marker_element mk;
     marker_lngLat := Some c |}.

(** A popup shown on a map. *)
Record Shown : Type := {
  shown_map : nat;
  shown_popup : Popup;
  shown_at : LngLat
}.

(** The handlers the component registers on a map with [on]. The load
    handler calls the [addMarkers] of the render that registered it, which
    closes over that render's [selectedCategory]. *)
Inductive MapHandler : Type :=
  | OnLoad (sel : POICategory)
  | OnError.

Record World : Type := {
  next_handle : nat;
  live_maps : list nat;
  loaded_maps : list nat;
  map_handlers : list (nat * MapHandler);
  dom_markers : list (nat * nat);
  open_popups : list Shown;
  console : list string
}.

Definition empty_world : World :=
  {| next_handle := 0; live_maps := []; loaded_maps := [];
     map_handlers := []; dom_markers := []; open_popups := [];
     console := [] |}.

(** Takes the next handle. *)
Definition alloc (w : World) : World :=
  {| next_handle := S (next_handle w);
     live_maps := live_maps w;
     loaded_maps := loaded_maps w;
     map_handlers := map_handlers w;
     dom_markers := dom_markers w;
     open_popups := open_popups w;
     console := console w |}.

Definition with_dom_markers (d : list (nat * nat)) (w : World) : World :=
  {| next_handle := next_handle w;
     live_maps := live_maps w;
     loaded_maps := loaded_maps w;
     map_handlers := map_handlers w;
     dom_markers := d;
     open_popups := open_popups w;
     console := console w |}.

Definition with_open_popups (p : list Shown) (w : World) : World :=
  {| next_handle := next_handle w;
     live_maps := live_maps w;
     loaded_maps := loaded_maps w;
     map_handlers := map_handlers w;
     dom_markers := dom_markers w;
     open_popups := p;
     console := console w |}.

Definition log (line : string) (w : World) : World :=
  {| next_handle := next_handle w;
     live_maps := live_maps w;
     loaded_maps := loaded_maps w;
     map_handlers := map_handlers w;
     dom_markers := dom_markers w;
     open_popups := open_popups w;
     console := console w ++ [line] |}.

(** [marker.remove()]: takes the marker's element out of whatever map
    holds it; nothing happens when it is on no map. *)
Definition Marker_remove (h : nat) (w : World) : World :=
  with_dom_markers (filter (fun e => negb (snd e =? h)) (dom_markers w)) w.

(** [marker.addTo(map)]: detaches the marker, then appends its element to
    the map's container. How the library then places the element on screen
    through the element's own style is outside this model: [transform]
    records what the listeners of the component wrote, nothing else. *)
Definition Marker_addTo (m h : nat) (w : World) : World :=
  let w' := Marker_remove h w in
  with_dom_markers (dom_markers w' ++ [(m, h)]) w'.

(** [popup.remove()]. *)
Definition Popup_remove (p : Popup) (w : World) : World :=
  with_open_popups
    (filter (fun s => negb (popup_handle (shown_popup s) =? popup_handle p))
            (open_popups w)) w.

(** [popup.setLngLat(c).addTo(map)]: a popup that is already open is closed
    first. *)
Definition Popup_addTo (m : nat) (c : LngLat) (p : Popup) (w : World) : World :=
  let w' := Popup_remove p w in
  with_open_popups
    (open_popups w' ++ [{| shown_map := m; shown_popup := p; shown_at := c |}]) w'.

(** [new maplibregl.Map(options)] when the constructor returns: the new
    map's handle and the world that holds it. The options of the component
    (raster tile source, center, zoom 13, pitch 0) are constants that play
    no part in what follows. *)
Definition Map_new (w : World) : nat * World :=
  let m := next_handle w in
  (m, {| next_handle := S m;
         live_maps := live_maps w ++ [m];
         loaded_maps := loaded_maps w;
         map_handlers := map_handlers w;
         dom_markers := dom_markers w;
         open_popups := open_popups w;
         console := console w |}).

(** [map.on(event, handler)]. *)
Definition Map_on (m : nat) (hd : MapHandler) (w : World) : World :=
  {| next_handle := next_handle w;
     live_maps := live_maps w;
     loaded_maps := loaded_maps w;
     map_handlers := map_handlers w ++ [(m, hd)];
     dom_markers := dom_markers w;
     open_popups := open_popups w;
     console := console w |}.

(** The map has fired its one [load] event. *)
Definition mark_loaded (m : nat) (w : World) : World :=
  {| next_handle := next_handle w;
     live_maps := live_maps w;
     loaded_maps := loaded_maps w ++ [m];
     map_handlers := map_handlers w;
     dom_markers := dom_markers w;
     open_popups := open_popups w;
     console := console w |}.

(** [map.remove()]: the map goes, with its handlers and with everything
    placed in its container. *)
Definition Map_remove (m : nat) (w : World) : World :=
  {| next_handle := next_handle w;
     live_maps := filter (fun x => negb (x =? m)) (live_maps w);
     loaded_maps := loaded_maps w;
     map_handlers := filter (fun e => negb (fst e =? m)) (map_handlers w);
     dom_markers := filter (fun e => negb (fst e =? m)) (dom_markers w);
     open_popups := filter (fun s => negb (shown_map s =? m)) (open_popups w);
     console := console w |}.

(** A DOM click inside the container of map [m] has bubbled up to the map:
    the map fires [click], and every popup on it that was made with
    [closeOnClick], the default, closes. The component makes all its popups
    with [{ offset: 25 }] alone. *)
Definition Map_click (m : nat) (w : World) : World :=
  with_open_popups (filter (fun s => negb (shown_map s =? m)) (open_popups w)) w.

(** The marker handles in the container of map [m], in document order. *)
Definition markers_on (m : nat) (w : World) : list nat :=
  map snd (filter (fun e => fst e =? m) (dom_markers w)).

End MapLibre.
Import MapLibre.

(** ** The component *)

(** The [div] the map is drawn in, the target of [containerRef]. *)
Inductive HTMLDivElement : Type := map_container.

(** The refs and state cells of one mounted [CityMap], the world it acts on,
    and whether React still holds the cleanup returned by the
    initialization effect. *)
Record State : Type := {
  mapRef : option nat;
  containerRef : option HTMLDivElement;
  markersRef : list Marker;
  mapError : option string;
  isLoading : bool;
  selectedCategory : POICategory;
  world : World;
  mounted : bool;
  cleanup_held : bool
}.

Definition set_mapRef (v : option nat) (st : State) : State :=
  {| mapRef := v; containerRef := containerRef st; markersRef := markersRef st;
     mapError := mapError st; isLoading := isLoading st;
     selectedCategory := selectedCategory st; world := world st;
     mounted := mounted st; cleanup_held := cleanup_held st |}.

Definition set_containerRef (v : option HTMLDivElement) (st : State) : State :=
  {| mapRef := mapRef st; containerRef := v; markersRef := markersRef st;
     mapError := mapError st; isLoading := isLoading st;
     selectedCategory := selectedCategory st; world := world st;
     mounted := mounted st; cleanup_held := cleanup_held st |}.

Definition set_markersRef (v : list Marker) (st : State) : State :=
  {| mapRef := mapRef st; containerRef := containerRef st; markersRef := v;
     mapError := mapError st; isLoading := isLoading st;
     selectedCategory := selectedCategory st; world := world st;
     mounted := mounted st; cleanup_held := cleanup_held st |}.

Definition setMapError (v : option string) (st : State) : State :=
  {| mapRef := mapRef st; containerRef := containerRef st; markersRef := markersRef st;
     mapError := v; isLoading := isLoading st;
     selectedCategory := selectedCategory st; world := world st;
     mounted := mounted st; cleanup_held := cleanup_held st |}.

Definition setIsLoading (v : bool) (st : State) : State :=
  {| mapRef := mapRef st; containerRef := containerRef st; markersRef := markersRef st;
     mapError := mapError st; isLoading := v;
     selectedCategory := selectedCategory st; world := world st;
     mounted := mounted st; cleanup_held := cleanup_held st |}.

Definition setSelectedCategory (v : POICategory) (st : State) : State :=
  {| mapRef := mapRef st; containerRef := containerRef st; markersRef := markersRef st;
     mapError := mapError st; isLoading := isLoading st;
     selectedCategory := v; world := world st;
     mounted := mounted st; cleanup_held := cleanup_held st |}.

Definition set_world (v : World) (st : State) : State :=
  {| mapRef := mapRef st; containerRef := containerRef st; markersRef := markersRef st;
     mapError := mapError st; isLoading := isLoading st;
     selectedCategory := selectedCategory st; world := v;
     mounted := mounted st; cleanup_held := cleanup_held st |}.

Definition set_mounted (v : bool) (st : State) : State :=
  {| mapRef := mapRef st; containerRef := containerRef st; markersRef := markersRef st;
     mapError := mapError st; isLoading := isLoading st;
     selectedCategory := selectedCategory st; world := world st;
     mounted := v; cleanup_held := cleanup_held st |}.

Definition set_cleanup_held (v : bool) (st : State) : State :=
  {| mapRef := mapRef st; containerRef := containerRef st; markersRef := markersRef st;
     mapError := mapError st; isLoading := isLoading st;
     selectedCategory := selectedCategory st; world := world st;
     mounted := mounted st; cleanup_held := v |}.

(** A property read from an object literal keyed by category. *)
Definition property (c : POICategory) (table : list (POICategory * string)) : option string :=
  option_map snd (find (fun e => category_eqb (fst e) c) table).

(** [a || b] on a possibly missing string: [b] when [a] is missing or empty. *)
Definition or_else (a : option string) (b : string) : string :=
  match a with
  | Some EmptyString | None => b
  | Some s => s
  end.

Definition getCategoryColor (c : POICategory) : string :=
  let colors :=
    [ (landmarks, "#FF6B6B"); (food, "#4ECDC4"); (art, "#45B7D1");
      (history, "#96CEB4"); (culture, "#FECA57"); (all, "#6C5CE7") ] in
  or_else (property c colors) (or_else (property all colors) "undefined").

Definition getCategoryIcon (c : POICategory) : string :=
  let icons :=
    [ (landmarks, "🏛️"); (food, "🍽️"); (art, "🎨");
      (history, "⛪"); (culture, "🎭"); (all, "📍") ] in
  or_else (property c icons) (or_else (property all icons) "undefined").

(** [createMarkerElement]: the styled [div] with its two hover listeners. *)
Definition createMarkerElement (poi : POI) : Element :=
  let el :=
    {| className := "custom-marker";
       cssText :=
         nl ^^ "      width: 30px;" ^^
         nl ^^ "      height: 30px;" ^^
         nl ^^ "      border-radius: 50%;" ^^
         nl ^^ "      background-color: " ^^ getCategoryColor (category poi) ^^ ";" ^^
         nl ^^ "      border: 3px solid white;" ^^
         nl ^^ "      box-shadow: 0 2px 8px rgba(0,0,0,0.3);" ^^
         nl ^^ "      cursor: pointer;" ^^
         nl ^^ "      display: flex;" ^^
         nl ^^ "      align-items: center;" ^^
         nl ^^ "      justify-content: center;" ^^
         nl ^^ "      font-size: 12px;" ^^
         nl ^^ "      transition: transform 0.2s ease;" ^^
         nl ^^ "    ";
       transform := EmptyString;
       innerHTML := getCategoryIcon (category poi);
       listeners := [] |} in
  let el := addEventListener mouseenter (SetTransform "scale(1.2)") el in
  let el := addEventListener mouseleave (SetTransform "scale(1)") el in
  el.

(** The markup handed to [setHTML]. *)
Definition popupHTML (poi : POI) : string :=
  nl ^^ "          <div class=" ^^ dquote ^^ "p-3" ^^ dquote ^^ ">" ^^
  nl ^^ "            <h3 class=" ^^ dquote ^^ "font-bold text-lg mb-1" ^^ dquote ^^ ">"
     ^^ name poi ^^ "</h3>" ^^
  nl ^^ "            <p class=" ^^ dquote ^^ "text-sm text-gray-600 mb-2" ^^ dquote ^^ ">"
     ^^ description poi ^^ "</p>" ^^
  nl ^^ "            <span class=" ^^ dquote
     ^^ "inline-block px-2 py-1 text-xs font-medium bg-blue-100 text-blue-800 rounded-full"
     ^^ dquote ^^ ">" ^^
  nl ^^ "              " ^^ category_string (category poi) ^^
  nl ^^ "            </span>" ^^
  nl ^^ "          </div>" ^^
  nl ^^ "        ".

(** The filter of [addMarkers]: the whole store for ['all'], else the POIs
    of the selected category. *)
Definition filteredPOIs (sel : POICategory) : list POI :=
  if category_eqb sel all
  then PARIS_POIS
  else filter (fun poi => category_eqb (category poi) sel) PARIS_POIS.

(** The first half of [addMarkers]: every held marker is removed from the
    map and the list is emptied. The teardown does the same. *)
Definition clearMarkers (st : State) : State :=
  let w := fold_left (fun w marker => Marker_remove (marker_handle marker) w)
                     (markersRef st) (world st) in
  set_markersRef [] (set_world w st).

(** The body of the [forEach] over the filtered POIs, on map [m]. *)
Definition addMarker (m : nat) (st : State) (poi : POI) : State :=
  let el := createMarkerElement poi in
  let w := world st in
  let hm := next_handle w in
  let w := Marker_addTo m hm (alloc w) in
  let marker := setLngLat (coordinates poi) (Marker_new hm el) in
  let popup :=
    {| popup_handle := next_handle w; popup_offset := 25; popup_html := popupHTML poi |} in
  let w := alloc w in
  let el := addEventListener click (OpenPopup popup poi) el in
  let marker :=
    {| marker_handle := marker_handle marker;
       marker_element := el;
       marker_lngLat := marker_lngLat marker |} in
  set_markersRef (markersRef st ++ [marker]) (set_world w st).

(** [addMarkers], as closed over the [selectedCategory] value [sel] of the
    render that made it. [mapRef.current] is read again at each marker and
    popup; nothing in between writes it, so the value seen by the guard is
    the one used. *)
Definition addMarkers (sel : POICategory) (st : State) : State :=
  match mapRef st with
  | None => st
  | Some m => fold_left (addMarker m) (filteredPOIs sel) (clearMarkers st)
  end.


(** The effect with dependencies [[selectedCategory, isLoading]]. *)
Definition markersEffect (st : State) : State :=
  match mapRef st with
  | Some _ => if negb (isLoading st) then addMarkers (selectedCategory st) st else st
  | None => st
  end.

(** The [load] handler registered by a render whose [selectedCategory] was
    [sel]. *)
Definition onLoad (sel : POICategory) (st : State) : State :=
  let st := setIsLoading false st in
  let st := set_world (log "Map loaded successfully" (world st)) st in
  addMarkers sel st.

(** The [error] handler. *)
Definition onError (st : State) : State :=
  let st := set_world (log "Map error:" (world st)) st in
  let st := setMapError (Some "Failed to load map") st in
  setIsLoading false st.

(** The initialization effect (dependencies [[]]). [throws] tells whether
    the map constructor raises. Past the guard the effect hands its cleanup
    to React, on the [try] and on the [catch] path alike. *)
Definition initEffect (throws : bool) (st : State) : State :=
  match containerRef st, mapRef st with
  | None, _ => st
  | Some _, Some _ => st
  | Some _, None =>
      let st :=
        if throws then
          let st := set_world (log "Map initialization error:" (world st)) st in
          let st := setMapError (Some "Failed to initialize map") st in
          setIsLoading false st
        else
          let (m, w) := Map_new (world st) in
          let st := set_mapRef (Some m) (set_world w st) in
          let st := set_world (Map_on m (OnLoad (selectedCategory st)) (world st)) st in
          set_world (Map_on m OnError (world st)) st in
      set_cleanup_held true st
  end.

(** The cleanup returned by the initialization effect. *)
Definition cleanup (st : State) : State :=
  let st := clearMarkers st in
  match mapRef st with
  | Some m => set_mapRef None (set_world (Map_remove m (world st)) st)
  | None => st
  end.

(** ** Rendering *)

(** One button of the filter bar. *)
Record Chip : Type := {
  chip_key : POICategory;
  chip_selected : bool;
  chip_icon : string;
  chip_label : string;
  chip_badge : option string
}.

Inductive View : Type :=
  | ErrorPanel (heading message : string)
  | MapScreen (loading_overlay : bool) (chips : list Chip).

(** A number as JSX prints it. *)
Definition number_text (n : nat) : string :=
  NilEmpty.string_of_uint (Nat.to_uint n).

(** [CATEGORIES.map(category => <button> ... </button>)] *)
Definition filterBar (selected : POICategory) : list Chip :=
  map (fun c =>
         {| chip_key := entry_id c;
            chip_selected := category_eqb selected (entry_id c);
            chip_icon := icon c;
            chip_label := label c;
            chip_badge :=
              if category_eqb selected (entry_id c)
              then Some (number_text
                           (if category_eqb selected all
                            then List.length PARIS_POIS
                            else List.length (filter (fun poi => category_eqb (category poi) (entry_id c))
                                                PARIS_POIS)))
              else None |})
      CATEGORIES.

(** What the component returns: the error panel when [mapError] is truthy,
    else the screen with the map container and the filter bar. *)
Definition render (st : State) : View :=
  match mapError st with
  | Some (String _ _ as message) => ErrorPanel "Map Error" message
  | _ => MapScreen (isLoading st) (filterBar (selectedCategory st))
  end.

(** ** React: commits and events *)

(** React commits the render of [st] that follows the render of [prev]: the
    container ref follows the rendered tree, then the marker effect runs if
    one of its dependencies changed. *)
Definition commit (prev st : State) : State :=
  let st :=
    set_containerRef
      (match render st with
       | ErrorPanel _ _ => None
       | MapScreen _ _ => Some map_container
       end) st in
  if negb (category_eqb (selectedCategory prev) (selectedCategory st))
     || negb (Bool.eqb (isLoading prev) (isLoading st))
  then markersEffect st
  else st.

Definition initial (w : World) : State :=
  {| mapRef := None; containerRef := None; markersRef := [];
     mapError := None; isLoading := true; selectedCategory := all;
     world := w; mounted := true; cleanup_held := false |}.

(** Mounting: first render, refs attached, both effects in source order,
    then the commit of whatever the effects set. *)
Definition mount (throws : bool) (w : World) : State :=
  let st0 := set_containerRef (Some map_container) (initial w) in
  let st1 := markersEffect st0 in
  let st2 := initEffect throws st1 in
  commit st0 st2.

(** Runs on [st] the handlers that map [m] holds and that [pick] selects. *)
Definition fire (m : nat) (pick : MapHandler -> option (State -> State)) (st : State) : State :=
  fold_left
    (fun st e =>
       if fst e =? m
       then match pick (snd e) with Some f => f st | None => st end
       else st)
    (map_handlers (world st)) st.

Definition load_handlers (hd : MapHandler) : option (State -> State) :=
  match hd with OnLoad sel => Some (onLoad sel) | OnError => None end.

Definition error_handlers (hd : MapHandler) : option (State -> State) :=
  match hd with OnError => Some onError | OnLoad _ => None end.

(** Writes [el.style.transform] of the marker element with handle [h]. *)
Definition set_transform (h : nat) (v : string) (st : State) : State :=
  set_markersRef
    (map (fun mk =>
            if marker_handle mk =? h
            then {| marker_handle := marker_handle mk;
                    marker_element :=
                      {| className := className (marker_element mk);
                         cssText := cssText (marker_element mk);
                         transform := v;
                         innerHTML := innerHTML (marker_element mk);
                         listeners := listeners (marker_element mk) |};
                    marker_lngLat := marker_lngLat mk |}
            else mk)
         (markersRef st)) st.

(** One listener of marker [h] runs. The popup listener hands
    [mapRef.current] to [addTo]; without a map that call raises, which the
    flag records. *)
Definition run_listener (h : nat) (l : Listener) (acc : State * bool) : State * bool :=
  let (st, raised) := acc in
  match l with
  | SetTransform v => (set_transform h v st, raised)
  | OpenPopup popup poi =>
      match mapRef st with
      | Some m => (set_world (Popup_addTo m (coordinates poi) popup (world st)) st, raised)
      | None => (st, true)
      end
  end.

(** An event of type [ty] reaches the element of marker [mk]: its listeners
    of that type run in the order they were added. *)
Definition dispatch (ty : EventType) (mk : Marker) (st : State) : State * bool :=
  fold_left
    (fun acc e =>
       match fst e, ty with
       | mouseenter, mouseenter | mouseleave, mouseleave | click, click =>
           run_listener (marker_handle mk) (snd e) acc
       | _, _ => acc
       end)
    (listeners (marker_element mk)) (st, false).

(** After the listeners of a marker element in the container of map [m]:
    a click, which no listener stops, goes on to the map; the hover events
    do not bubble. *)
Definition bubble (ty : EventType) (m : nat) (st : State) : State :=
  match ty with
  | click => set_world (Map_click m (world st)) st
  | mouseenter | mouseleave => st
  end.

Inductive Event : Type :=
  | MapLoad
  | MapFailure
  | ChipClick (c : POICategory)
  | MarkerEvent (ty : EventType) (h : nat)
  | RunInit (throws : bool)
  | Unmount.

(** One event on a mounted component; [None] when the event cannot happen
    in [st]. The map of [mapRef] fires [load] once and [error] any number
    of times; chips and markers can be reached only while the map screen is
    rendered, a marker only while its element is in a map's container;
    [RunInit] is the initialization effect invoked once more. *)
Definition step (ev : Event) (st : State) : option State :=
  if negb (mounted st) then None else
  match ev with
  | MapLoad =>
      match mapRef st with
      | Some m =>
          if existsb (Nat.eqb m) (loaded_maps (world st)) then None
          else Some (commit st (fire m load_handlers
                                     (set_world (mark_loaded m (world st)) st)))
      | None => None
      end
  | MapFailure =>
      match mapRef st with
      | Some m => Some (commit st (fire m error_handlers st))
      | None => None
      end
  | ChipClick c =>
      match render st with
      | MapScreen _ _ => Some (commit st (setSelectedCategory c st))
      | ErrorPanel _ _ => None
      end
  | MarkerEvent ty h =>
      match render st with
      | MapScreen _ _ =>
          match find (fun e => snd e =? h) (dom_markers (world st)) with
          | Some e =>
              match find (fun mk => marker_handle mk =? h) (markersRef st) with
              | Some mk => Some (bubble ty (fst e) (fst (dispatch ty mk st)))
              | None => None
              end
          | None => None
          end
      | ErrorPanel _ _ => None
      end
  | RunInit throws => Some (commit st (initEffect throws st))
  | Unmount =>
      let st := set_containerRef None st in
      let st := if cleanup_held st then set_cleanup_held false (cleanup st) else st in
      Some (set_mounted false st)
  end.

(** A sequence of events, oldest first. *)
Fixpoint run (evs : list Event) (st : State) : option State :=
  match evs with
  | [] => Some st
  | ev :: evs' =>
      match step ev st with
      | Some st' => run evs' st'
      | None => None
      end
  end.

(** The states a component mounted in an empty page goes through. *)
Definition reachable (st : State) : Prop :=
  exists throws evs, run evs (mount throws empty_world) = Some st.


(** ** Vocabulary of the properties *)

(** The POI a marker stands for: the one captured by the click listener of
    its element. *)
Definition marker_poi (mk : Marker) : option POI :=
  match find (fun e => match fst e with click => true | _ => false end)
             (listeners (marker_element mk)) with
  | Some (_, OpenPopup _ poi) => Some poi
  | _ => None
  end.

(** The number of POIs shown under filter [f]: all of them for ['all'], else
    those of category [f]. *)
Definition poi_count (f : POICategory) : nat :=
  match f with
  | all => List.length PARIS_POIS
  | _ => List.length (filter (fun poi => category_eqb (category poi) f) PARIS_POIS)
  end.

(** [passes f poi]: filter [f] lets [poi] through. *)
Definition passes (f : POICategory) (poi : POI) : Prop :=
  f = all \/ category poi = f.

(** [s] has [sub] as a substring. *)
Definition contains (s sub : string) : Prop :=
  exists before after, s = before ^^ sub ^^ after.

(** Every marker element in a map container belongs to a held marker. *)
Definition dom_held (st : State) : Prop :=
  forall e, In e (dom_markers (world st)) ->
            In (snd e) (map marker_handle (markersRef st)).

(** The marker that [addMarker] builds for [poi] when the next free handle
    is [n]: the marker takes [n], its popup [n + 1]. *)
Definition marker_at (n : nat) (poi : POI) : Marker :=
  {| marker_handle := n;
     marker_element :=
       addEventListener click
         (OpenPopup {| popup_handle := S n; popup_offset := 25;
                       popup_html := popupHTML poi |} poi)
         (createMarkerElement poi);
     marker_lngLat := Some (coordinates poi) |}.

Fixpoint markers_from (n : nat) (pois : list POI) : list Marker :=
  match pois with
  | [] => []
  | poi :: rest => marker_at n poi :: markers_from (S (S n)) rest
  end.

(** The container contents after the markers of [pois] were added to map
    [m] one by one from handle [n]. *)
Fixpoint dom_after (m n : nat) (pois : list POI) (dom : list (nat * nat)) : list (nat * nat) :=
  match pois with
  | [] => dom
  | _ :: rest =>
      dom_after m (S (S n)) rest (filter (fun e => negb (snd e =? n)) dom ++ [(m, n)])
  end.

(** World [w] with another allocator position and other container contents. *)
Definition rebuilt (n : nat) (dom : list (nat * nat)) (w : World) : World :=
  {| next_handle := n;
     live_maps := live_maps w;
     loaded_maps := loaded_maps w;
     map_handlers := map_handlers w;
     dom_markers := dom;
     open_popups := open_popups w;
     console := console w |}.

(** Whether handle [h] is the handle of none of [mks]. *)
Definition not_held (mks : list Marker) (e : nat * nat) : bool :=
  negb (existsb (fun mk => snd e =? marker_handle mk) mks).

(** The POI of the store with identifier [i]. *)
Definition poi_by_id (i : string) : option POI :=
  find (fun poi => String.eqb (id poi) i) PARIS_POIS.

(** A string that counts as true in a condition. *)
Definition truthy (e : option string) : Prop :=
  exists ch rest, e = Some (String ch rest).

Record inv (st : State) : Prop := {
  inv_maps :
    live_maps (world st) = match mapRef st with Some m => [m] | None => [] end;
  inv_dom :
    dom_markers (world st)
    = match mapRef st with
      | Some m => map (fun mk => (m, marker_handle mk)) (markersRef st)
      | None => []
      end;
  inv_no_map : mapRef st = None -> markersRef st = [];
  inv_loading : isLoading st = true -> markersRef st = [];
  inv_error : mapRef st = None -> mounted st = true -> truthy (mapError st);
  inv_container : mapRef st = None -> containerRef st = None;
  inv_cleanup : mounted st = true -> cleanup_held st = true;
  inv_unmounted : mounted st = false -> mapRef st = None
}.

(** What an event on a marker element leaves alone: everything but the
    element styles and the open popups. *)
Definition same_markers (st1 st : State) : Prop :=
  mapRef st1 = mapRef st
  /\ containerRef st1 = containerRef st
  /\ map marker_handle (markersRef st1) = map marker_handle (markersRef st)
  /\ mapError st1 = mapError st
  /\ isLoading st1 = isLoading st
  /\ mounted st1 = mounted st
  /\ cleanup_held st1 = cleanup_held st
  /\ live_maps (world st1) = live_maps (world st)
  /\ dom_markers (world st1) = dom_markers (world st).

(** What a rebuild, an effect run or a commit leaves alone: every state
    cell, the map reference, and all of the world but the marker elements
    and the handle allocator. *)
Definition rebuild_frame (st' st : State) : Prop :=
  mapRef st' = mapRef st
  /\ mapError st' = mapError st
  /\ isLoading st' = isLoading st
  /\ selectedCategory st' = selectedCategory st
  /\ mounted st' = mounted st
  /\ cleanup_held st' = cleanup_held st
  /\ live_maps (world st') = live_maps (world st)
  /\ loaded_maps (world st') = loaded_maps (world st)
  /\ map_handlers (world st') = map_handlers (world st)
  /\ open_popups (world st') = open_popups (world st)
  /\ console (world st') = console (world st).

(** What an event on a marker element leaves alone besides [same_markers]:
    the selection, the map handlers, the load record, and the POI, the
    position and the listeners of every marker. *)
Definition same_cells (st1 st : State) : Prop :=
  selectedCategory st1 = selectedCategory st
  /\ loaded_maps (world st1) = loaded_maps (world st)
  /\ map_handlers (world st1) = map_handlers (world st)
  /\ map marker_poi (markersRef st1) = map marker_poi (markersRef st)
  /\ map marker_lngLat (markersRef st1) = map marker_lngLat (markersRef st).

(** The [transform] each held marker element shows. *)
Definition transforms (st : State) : list string :=
  map (fun mk => transform (marker_element mk)) (markersRef st).

(** The handlers of the referenced map, the record of its [load], and the
    shape of the marker list, as they stand in every reachable state. *)
Record sync (st : State) : Prop := {
  sync_handlers :
    map_handlers (world st)
    = match mapRef st with
      | Some m => [(m, OnLoad all); (m, OnError)]
      | None => []
      end;
  sync_loaded :
    forall m, mapRef st = Some m -> In m (loaded_maps (world st)) ->
              isLoading st = false;
  sync_pending :
    forall m, mapRef st = Some m -> isLoading st = false -> mapError st = None ->
              In m (loaded_maps (world st));
  sync_some_filter :
    markersRef st = []
    \/ exists f, map marker_poi (markersRef st) = map Some (filteredPOIs f);
  sync_nodup : NoDup (map marker_handle (markersRef st))
}.

(** The held markers are those of the selected category, whenever the
    component is mounted, loaded and free of error. *)
Definition follows (st : State) : Prop :=
  mounted st = true -> isLoading st = false -> mapError st = None ->
  map marker_poi (markersRef st) = map Some (filteredPOIs (selectedCategory st)).

(** [no_regress st s]: state [s] has the selection of [st], is loaded if
    [st] was, and is in error if [st] was. *)
Definition no_regress (st s : State) : Prop :=
  selectedCategory s = selectedCategory st
  /\ (isLoading st = false -> isLoading s = false)
  /\ (truthy (mapError st) -> truthy (mapError s)).

(** The selection after the events [evs], from selection [sel]: the
    category of the last chip clicked, [sel] when none was. *)
Fixpoint last_selection (evs : list Event) (sel : POICategory) : POICategory :=
  match evs with
  | [] => sel
  | ChipClick c :: rest => last_selection rest c
  | _ :: rest => last_selection rest sel
  end.

(** Whether an event is a click on a chip or an event on a marker. *)
Definition on_map_screen (ev : Event) : bool :=
  match ev with
  | ChipClick _ | MarkerEvent _ _ => true
  | _ => false
  end.

(** [built_for poi mk]: marker [mk] carries the listeners that [addMarker]
    gives the marker of [poi], and sits at the coordinates of [poi]. *)
Definition built_for (poi : POI) (mk : Marker) : Prop :=
  listeners (marker_element mk)
  = listeners (marker_element (marker_at (marker_handle mk) poi))
  /\ marker_lngLat mk = Some (coordinates poi).

(** The popup that [addMarker] makes for [poi] when the marker takes handle
    [h]. *)
Definition popup_at (h : nat) (poi : POI) : Popup :=
  {| popup_handle := S h; popup_offset := 25; popup_html := popupHTML poi |}.

(** Held markers all come from POIs of the store, and no popup is open. *)
Record popups_ok (st : State) : Prop := {
  held_built :
    forall mk, In mk (markersRef st) ->
               exists poi, In poi PARIS_POIS /\ built_for poi mk;
  none_open : open_popups (world st) = []
}.

(** The loaded component after a click on its first marker. *)
Definition clicked_example : State :=
  match run [MapLoad; MarkerEvent click 17] (mount false empty_world) with
  | Some st => st
  | None => mount false empty_world
  end.


(** A component whose map constructor raised. *)
Definition failed_example : State := mount true empty_world.

(** That component after an attempt to initialize again and the unmount. *)
Definition failed_unmounted : State :=
  match run [RunInit false; Unmount] failed_example with
  | Some st => st
  | None => failed_example
  end.

(** A freshly mounted component while the map is loading. *)
Definition loading_example : State := mount false empty_world.

(** The same component once its map has fired [load]. *)
Definition loaded_example : State :=
  match run [MapLoad] loading_example with
  | Some st => st
  | None => loading_example
  end.

(** The first POI of the store, the one with id 1. *)
Definition first_poi : POI :=
  hd {| id := EmptyString; name := EmptyString; category := all;
        coordinates := (0, 0)%Q; description := EmptyString |} PARIS_POIS.

(** The loaded component after a click on the art chip. *)
Definition browsing_example : State :=
  match run [ChipClick art] loaded_example with
  | Some st => st
  | None => loaded_example
  end.

(** ** Basic facts *)

Lemma append_assoc (a b c : string) : (a ^^ b) ^^ c = a ^^ b ^^ c.
Proof.
  induction a as [|ch a IH]; simpl; [reflexivity | now rewrite IH].
Qed.

Lemma category_eqb_eq (a b : POICategory) : category_eqb a b = true <-> a = b.
Proof.
  split; [destruct a, b; simpl; congruence | intros ->; now destruct b].
Qed.

Lemma poi_count_filtered (f : POICategory) : List.length (filteredPOIs f) = poi_count f.
Proof. now destruct f. Qed.

Lemma filteredPOIs_passes (f : POICategory) (poi : POI) :
  In poi (filteredPOIs f) <-> In poi PARIS_POIS /\ passes f poi.
Proof.
  unfold filteredPOIs, passes.
  destruct (category_eqb f all) eqn:E.
  - apply category_eqb_eq in E. subst f. tauto.
  - rewrite filter_In, category_eqb_eq.
    assert (f <> all) by (intros ->; discriminate).
    tauto.
Qed.

(** *** The markers built from a list of POIs *)

Lemma markers_from_length (pois : list POI) :
  forall n, List.length (markers_from n pois) = List.length pois.
Proof.
  induction pois as [|poi rest IH]; intros n; simpl; [reflexivity | now rewrite IH].
Qed.

Lemma markers_from_poi (pois : list POI) :
  forall n, map marker_poi (markers_from n pois) = map Some pois.
Proof.
  induction pois as [|poi rest IH]; intros n; simpl; [reflexivity|].
  now rewrite IH.
Qed.

Lemma markers_from_lngLat (pois : list POI) :
  forall n, map marker_lngLat (markers_from n pois) = map (fun poi => Some (coordinates poi)) pois.
Proof.
  induction pois as [|poi rest IH]; intros n; simpl; [reflexivity|].
  now rewrite IH.
Qed.

Lemma markers_from_bounds (pois : list POI) :
  forall n h, In h (map marker_handle (markers_from n pois)) ->
              n <= h < n + 2 * List.length pois.
Proof.
  induction pois as [|poi rest IH]; intros n h; simpl; [tauto|].
  intros [<- | Hin]; [lia|].
  apply IH in Hin. lia.
Qed.

Lemma markers_from_NoDup (pois : list POI) :
  forall n, NoDup (map marker_handle (markers_from n pois)).
Proof.
  induction pois as [|poi rest IH]; intros n; simpl; constructor.
  - intros Hin. apply markers_from_bounds in Hin. lia.
  - apply IH.
Qed.


(** *** What the two halves of [addMarkers] compute *)

Lemma remove_all_world (mks : list Marker) :
  forall w,
    fold_left (fun w marker => Marker_remove (marker_handle marker) w) mks w
    = with_dom_markers (filter (not_held mks) (dom_markers w)) w.
Proof.
  induction mks as [|mk rest IH]; intros w.
  - destruct w as [n lm ld hs dom pops con]. unfold with_dom_markers, not_held. simpl.
    now rewrite filter_true.
  - simpl fold_left. rewrite IH.
    destruct w as [n lm ld hs dom pops con].
    unfold Marker_remove, with_dom_markers. simpl. f_equal.
    induction dom as [|e dom IHd]; simpl; [reflexivity|].
    unfold not_held at 2. simpl.
    destruct (snd e =? marker_handle mk); simpl.
    + exact IHd.
    + fold (not_held rest e). destruct (not_held rest e); [now rewrite IHd | exact IHd].
Qed.

Lemma clearMarkers_eq (st : State) :
  clearMarkers st
  = set_markersRef []
      (set_world (with_dom_markers (filter (not_held (markersRef st))
                                           (dom_markers (world st)))
                                   (world st)) st).
Proof. unfold clearMarkers. now rewrite remove_all_world. Qed.

Lemma add_all_eq (m : nat) (pois : list POI) :
  forall st,
    fold_left (addMarker m) pois st
    = set_markersRef (markersRef st ++ markers_from (next_handle (world st)) pois)
        (set_world (rebuilt (next_handle (world st) + 2 * List.length pois)
                            (dom_after m (next_handle (world st)) pois
                                       (dom_markers (world st)))
                            (world st)) st).
Proof.
  induction pois as [|poi rest IH]; intros st.
  - destruct st as [mr cr mks me il sc w mo ch].
    destruct w as [n lm ld hs dom pops con].
    unfold set_markersRef, set_world, rebuilt. simpl.
    now rewrite app_nil_r, Nat.add_0_r.
  - simpl fold_left. rewrite IH.
    destruct st as [mr cr mks me il sc w mo ch].
    destruct w as [n lm ld hs dom pops con].
    unfold set_markersRef, set_world, rebuilt, addMarker. simpl.
    rewrite <- app_assoc. simpl.
    do 2 f_equal. lia.
Qed.

Lemma addMarkers_eq (f : POICategory) (st : State) (m : nat) :
  mapRef st = Some m ->
  addMarkers f st
  = set_markersRef (markers_from (next_handle (world st)) (filteredPOIs f))
      (set_world
         (rebuilt (next_handle (world st) + 2 * List.length (filteredPOIs f))
                  (dom_after m (next_handle (world st)) (filteredPOIs f)
                             (filter (not_held (markersRef st)) (dom_markers (world st))))
                  (world st)) st).
Proof.
  intros Hm. unfold addMarkers. rewrite Hm, add_all_eq, clearMarkers_eq.
  now destruct st.
Qed.

Lemma addMarkers_no_map (f : POICategory) (st : State) :
  mapRef st = None -> addMarkers f st = st.
Proof. intros Hm. unfold addMarkers. now rewrite Hm. Qed.

(** *** The container contents *)

Lemma dom_after_fresh (m : nat) (pois : list POI) :
  forall n dom,
    (forall e, In e dom -> snd e < n) ->
    dom_after m n pois dom
    = dom ++ map (fun mk => (m, marker_handle mk)) (markers_from n pois).
Proof.
  induction pois as [|poi rest IH]; intros n dom Hlt; simpl.
  - now rewrite app_nil_r.
  - rewrite IH.
    + rewrite <- app_assoc. simpl. f_equal.
      apply forallb_filter_id. apply forallb_forall. intros e He.
      apply Hlt in He. apply negb_true_iff, Nat.eqb_neq. lia.
    + intros e He. apply in_app_or in He. destruct He as [He | [<- | []]].
      * apply filter_In in He. destruct He as [He _]. apply Hlt in He. lia.
      * simpl. lia.
Qed.

Lemma not_held_spec (mks : list Marker) (e : nat * nat) :
  not_held mks e = false <-> In (snd e) (map marker_handle mks).
Proof.
  unfold not_held. rewrite negb_false_iff, existsb_exists, in_map_iff.
  split.
  - intros [mk [Hin Heq]]. apply Nat.eqb_eq in Heq. now exists mk.
  - intros [mk [Heq Hin]]. exists mk. split; [assumption | now apply Nat.eqb_eq].
Qed.

Lemma dom_held_cleared (st : State) :
  dom_held st -> filter (not_held (markersRef st)) (dom_markers (world st)) = [].
Proof.
  intros Hheld.
  rewrite (filter_ext_in (not_held (markersRef st)) (fun _ => false)).
  - apply filter_false.
  - intros e He. apply not_held_spec. now apply Hheld.
Qed.

(** After a rebuild from a state where every marker element is held, the
    container of the map holds the new markers and nothing else. *)
Lemma addMarkers_dom (f : POICategory) (st : State) (m : nat) :
  mapRef st = Some m -> dom_held st ->
  dom_markers (world (addMarkers f st))
  = map (fun mk => (m, marker_handle mk)) (markersRef (addMarkers f st)).
Proof.
  intros Hm Hheld. rewrite (addMarkers_eq f st m Hm). simpl.
  rewrite dom_held_cleared by assumption.
  now rewrite dom_after_fresh by (intros e []).
Qed.

Lemma addMarkers_dom_held (f : POICategory) (st : State) :
  dom_held st -> dom_held (addMarkers f st).
Proof.
  intros Hheld. destruct (mapRef st) as [m|] eqn:Hm.
  - intros e He. rewrite (addMarkers_dom f st m Hm Hheld) in He.
    apply in_map_iff in He. destruct He as [mk [<- Hin]]. simpl.
    now apply in_map.
  - now rewrite addMarkers_no_map.
Qed.

(** *** The store *)

Lemma PARIS_POIS_NoDup : NoDup PARIS_POIS.
Proof.
  apply (NoDup_map_inv id).
  unfold PARIS_POIS. simpl.
  repeat (constructor; [simpl; intuition discriminate|]).
  constructor.
Qed.

Lemma filteredPOIs_NoDup (f : POICategory) : NoDup (filteredPOIs f).
Proof.
  unfold filteredPOIs. destruct (category_eqb f all).
  - apply PARIS_POIS_NoDup.
  - apply NoDup_filter, PARIS_POIS_NoDup.
Qed.

Lemma Some_NoDup (A : Type) (l : list A) : NoDup l -> NoDup (map Some l).
Proof.
  induction 1 as [|x l Hx Hl IH]; simpl; constructor; [|assumption].
  intros Hin. apply in_map_iff in Hin. destruct Hin as [y [Heq Hy]].
  injection Heq as ->. contradiction.
Qed.

(** ** What holds in every reachable state *)

Lemma inv_dom_held (st : State) : inv st -> dom_held st.
Proof.
  intros Hinv e He. rewrite (inv_dom st Hinv) in He.
  destruct (mapRef st) as [m|]; [|contradiction].
  apply in_map_iff in He. destruct He as [mk [<- Hin]]. simpl. now apply in_map.
Qed.

Lemma inv_mount (throws : bool) : inv (mount throws empty_world).
Proof.
  destruct throws; constructor; simpl; try reflexivity; try discriminate.
  intros _ _. now exists "F"%char, "ailed to initialize map".
Qed.

Lemma inv_addMarkers (f : POICategory) (st : State) :
  inv st -> isLoading st = false -> inv (addMarkers f st).
Proof.
  intros Hinv Hl. destruct (mapRef st) as [m|] eqn:Hm.
  - pose proof (addMarkers_dom f st m Hm (inv_dom_held st Hinv)) as Hdom.
    rewrite (addMarkers_eq f st m Hm) in Hdom |- *.
    destruct Hinv as [Hmaps _ _ _ Herr Hcont Hcl Hun].
    constructor; cbn [mapRef markersRef isLoading mounted mapError containerRef
                      cleanup_held world set_markersRef set_world rebuilt live_maps] in *;
      rewrite ?Hm in *; try assumption; try discriminate.
    rewrite Hl. discriminate.
  - now rewrite addMarkers_no_map.
Qed.

Lemma addMarkers_frame (f : POICategory) (st : State) :
  mapRef (addMarkers f st) = mapRef st
  /\ containerRef (addMarkers f st) = containerRef st
  /\ mapError (addMarkers f st) = mapError st
  /\ isLoading (addMarkers f st) = isLoading st
  /\ selectedCategory (addMarkers f st) = selectedCategory st
  /\ mounted (addMarkers f st) = mounted st
  /\ cleanup_held (addMarkers f st) = cleanup_held st
  /\ live_maps (world (addMarkers f st)) = live_maps (world st)
  /\ loaded_maps (world (addMarkers f st)) = loaded_maps (world st)
  /\ map_handlers (world (addMarkers f st)) = map_handlers (world st)
  /\ open_popups (world (addMarkers f st)) = open_popups (world st)
  /\ console (world (addMarkers f st)) = console (world st).
Proof.
  destruct (mapRef st) as [m|] eqn:Hm.
  - rewrite (addMarkers_eq f st m Hm). simpl. now rewrite Hm.
  - rewrite addMarkers_no_map by assumption. now rewrite Hm.
Qed.

Lemma inv_markersEffect (st : State) : inv st -> inv (markersEffect st).
Proof.
  intros Hinv. unfold markersEffect.
  destruct (mapRef st); [|assumption].
  destruct (isLoading st) eqn:Hl; simpl; [assumption|].
  now apply inv_addMarkers.
Qed.

Lemma markersEffect_mounted (st : State) : mounted (markersEffect st) = mounted st.
Proof.
  unfold markersEffect. destruct (mapRef st); [|reflexivity].
  destruct (negb (isLoading st)); [|reflexivity].
  apply addMarkers_frame.
Qed.

Lemma inv_onLoad (sel : POICategory) (st : State) : inv st -> inv (onLoad sel st).
Proof.
  intros Hinv. unfold onLoad. apply inv_addMarkers; [|reflexivity].
  destruct Hinv as [Hmaps Hdom Hnm Hld Herr Hcont Hcl Hun].
  constructor; simpl; try assumption. discriminate.
Qed.

Lemma inv_onError (st : State) : inv st -> inv (onError st).
Proof.
  intros Hinv. unfold onError.
  destruct Hinv as [Hmaps Hdom Hnm Hld Herr Hcont Hcl Hun].
  constructor; simpl; try assumption; try discriminate.
  intros _ _. now exists "F"%char, "ailed to load map".
Qed.

Lemma onLoad_mounted (sel : POICategory) (st : State) : mounted (onLoad sel st) = mounted st.
Proof. unfold onLoad. now rewrite (proj1 (proj2 (proj2 (proj2 (proj2 (proj2 (addMarkers_frame sel _))))))). Qed.

Lemma fire_preserves (P : State -> Prop) (m : nat) (pick : MapHandler -> option (State -> State)) :
  (forall hd f st, pick hd = Some f -> P st -> P (f st)) ->
  forall st, P st -> P (fire m pick st).
Proof.
  intros Hpick st. unfold fire.
  generalize (map_handlers (world st)) as hs.
  intros hs. revert st.
  induction hs as [|e hs IH]; intros st HP; simpl; [assumption|].
  apply IH. destruct (fst e =? m); [|assumption].
  destruct (pick (snd e)) as [f|] eqn:Hf; [|assumption].
  now apply (Hpick (snd e)).
Qed.

Lemma inv_fire_load (m : nat) (st : State) :
  inv st /\ mounted st = true ->
  inv (fire m load_handlers st) /\ mounted (fire m load_handlers st) = true.
Proof.
  apply (fire_preserves (fun st => inv st /\ mounted st = true)).
  intros [sel|] f st0 Hf [Hinv Hmo]; simpl in Hf; [|discriminate].
  injection Hf as <-. split; [now apply inv_onLoad | now rewrite onLoad_mounted].
Qed.

Lemma inv_fire_error (m : nat) (st : State) :
  inv st /\ mounted st = true ->
  inv (fire m error_handlers st) /\ mounted (fire m error_handlers st) = true.
Proof.
  apply (fire_preserves (fun st => inv st /\ mounted st = true)).
  intros [sel|] f st0 Hf [Hinv Hmo]; simpl in Hf; [discriminate|].
  injection Hf as <-. split; [now apply inv_onError | assumption].
Qed.

Lemma render_truthy (st : State) :
  truthy (mapError st) -> exists h msg, render st = ErrorPanel h msg.
Proof.
  intros [ch [rest He]]. unfold render. rewrite He. eauto.
Qed.

Lemma inv_commit (prev st : State) :
  inv st -> mounted st = true -> inv (commit prev st) /\ mounted (commit prev st) = true.
Proof.
  intros Hinv Hmo. unfold commit.
  set (st1 := set_containerRef _ st).
  assert (H1 : inv st1).
  { destruct Hinv as [Hmaps Hdom Hnm Hld Herr Hcont Hcl Hun].
    constructor; simpl; try assumption.
    intros Hnone. destruct (render_truthy st (Herr Hnone Hmo)) as [h [msg ->]].
    reflexivity. }
  destruct (_ || _).
  - split; [now apply inv_markersEffect | now rewrite markersEffect_mounted].
  - now split.
Qed.

(** Under the invariant the initialization effect, invoked again, does
    nothing: either the map exists or the container is not rendered. *)
Lemma inv_initEffect (throws : bool) (st : State) : inv st -> initEffect throws st = st.
Proof.
  intros Hinv. unfold initEffect.
  destruct (mapRef st) eqn:Hm.
  - now destruct (containerRef st).
  - now rewrite (inv_container st Hinv Hm).
Qed.

Lemma same_markers_refl (st : State) : same_markers st st.
Proof. repeat split. Qed.

Lemma same_markers_trans (st2 st1 st : State) :
  same_markers st2 st1 -> same_markers st1 st -> same_markers st2 st.
Proof. unfold same_markers. intuition congruence. Qed.

Lemma run_listener_frame (h : nat) (l : Listener) (st : State) (flag : bool) :
  same_markers (fst (run_listener h l (st, flag))) st.
Proof.
  destruct l as [v | popup poi]; simpl.
  - repeat split. simpl. rewrite map_map. apply map_ext. intros a.
    now destruct (marker_handle a =? h).
  - destruct (mapRef st) eqn:Hm; simpl; repeat split; simpl; assumption.
Qed.

Lemma dispatch_frame (ty : EventType) (mk : Marker) (st : State) :
  same_markers (fst (dispatch ty mk st)) st.
Proof.
  unfold dispatch.
  generalize (listeners (marker_element mk)) as ls. intros ls.
  generalize false as flag. revert st.
  induction ls as [|e ls IH]; intros st flag; simpl; [apply same_markers_refl|].
  set (acc := match fst e with mouseenter => _ | mouseleave => _ | click => _ end).
  assert (Hacc : same_markers (fst acc) st).
  { subst acc. destruct (fst e), ty;
      first [apply run_listener_frame | apply same_markers_refl]. }
  destruct acc as [st1 flag1]. simpl in Hacc.
  exact (same_markers_trans _ _ _ (IH st1 flag1) Hacc).
Qed.

Lemma inv_dispatch (ty : EventType) (mk : Marker) (st : State) :
  inv st -> inv (fst (dispatch ty mk st)).
Proof.
  intros Hinv.
  destruct (dispatch_frame ty mk st) as [F1 [F2 [F3 [F4 [F5 [F6 [F7 [F8 F9]]]]]]]].
  assert (Hnil : markersRef st = [] -> markersRef (fst (dispatch ty mk st)) = []).
  { intros Hn. rewrite Hn in F3. now destruct (markersRef (fst (dispatch ty mk st))). }
  destruct Hinv as [Hmaps Hdom Hnm Hld Herr Hcont Hcl Hun].
  constructor; rewrite ?F1, ?F2, ?F4, ?F5, ?F6, ?F7, ?F8, ?F9; auto.
  rewrite Hdom. destruct (mapRef st); [|reflexivity].
  rewrite <- (map_map marker_handle (fun h => (n, h))), <- F3.
  now rewrite map_map.
Qed.

Lemma inv_bubble (ty : EventType) (m : nat) (st : State) :
  inv st -> inv (bubble ty m st).
Proof.
  intros Hinv. destruct ty; [assumption | assumption |].
  destruct Hinv as [Hmaps Hdom Hnm Hld Herr Hcont Hcl Hun].
  constructor; simpl; assumption.
Qed.

Lemma inv_unmount (st : State) :
  inv st -> mounted st = true ->
  inv (set_mounted false (set_cleanup_held false (cleanup (set_containerRef None st))))
  /\ markersRef (cleanup (set_containerRef None st)) = []
  /\ mapRef (cleanup (set_containerRef None st)) = None
  /\ live_maps (world (cleanup (set_containerRef None st))) = []
  /\ dom_markers (world (cleanup (set_containerRef None st))) = [].
Proof.
  intros Hinv Hmo.
  pose proof (inv_dom_held st Hinv) as Hheld.
  unfold cleanup. rewrite clearMarkers_eq.
  cbn [mapRef markersRef world set_containerRef set_markersRef set_world].
  rewrite (dom_held_cleared st Hheld).
  destruct Hinv as [Hmaps Hdom Hnm Hld Herr Hcont Hcl Hun].
  destruct (mapRef st) as [m|] eqn:Hm.
  - repeat split; simpl; try reflexivity; try discriminate;
      rewrite ?Hmaps; simpl; now rewrite ?Nat.eqb_refl.
  - repeat split; simpl; try reflexivity; try discriminate; rewrite ?Hm; auto.
Qed.

Lemma step_inv (ev : Event) (st st' : State) :
  inv st -> step ev st = Some st' -> inv st'.
Proof.
  intros Hinv. unfold step.
  destruct (mounted st) eqn:Hmo; simpl; [|discriminate].
  destruct ev as [| |c|ty h|throws|].
  - destruct (mapRef st) eqn:Hm; [|discriminate].
    destruct (existsb _ _); [discriminate|].
    intros [= <-].
    assert (Hbase : inv (set_world (mark_loaded n (world st)) st)).
    { destruct Hinv as [Hmaps Hdom Hnm Hld Herr Hcont Hcl Hun].
      constructor; simpl; assumption. }
    destruct (inv_fire_load n _ (conj Hbase Hmo)) as [Hi Hmo'].
    now apply inv_commit.
  - destruct (mapRef st) eqn:Hm; [|discriminate].
    intros [= <-].
    destruct (inv_fire_error n _ (conj Hinv Hmo)) as [Hi Hmo'].
    now apply inv_commit.
  - destruct (render st); [discriminate|].
    intros [= <-]. apply inv_commit; [|assumption].
    destruct Hinv as [Hmaps Hdom Hnm Hld Herr Hcont Hcl Hun].
    constructor; simpl; assumption.
  - destruct (render st); [discriminate|].
    destruct (find _ (dom_markers _)) as [e|]; [|discriminate].
    destruct (find _ _) as [mk|]; [|discriminate].
    intros [= <-]. now apply inv_bubble, inv_dispatch.
  - intros [= <-]. rewrite inv_initEffect by assumption.
    now apply inv_commit.
  - cbn [cleanup_held set_containerRef].
    rewrite (inv_cleanup st Hinv Hmo).
    intros [= <-]. now apply inv_unmount.
Qed.

Lemma run_inv (evs : list Event) :
  forall st st', inv st -> run evs st = Some st' -> inv st'.
Proof.
  induction evs as [|ev evs IH]; intros st st' Hinv; simpl.
  - now intros [= <-].
  - destruct (step ev st) as [st1|] eqn:Hs; [|discriminate].
    apply IH. now apply (step_inv ev st).
Qed.

Lemma reachable_inv (st : State) : reachable st -> inv st.
Proof.
  intros [throws [evs Hrun]]. exact (run_inv evs _ _ (inv_mount throws) Hrun).
Qed.

(** *** A chip click on a loaded map *)

(** A click that changes the selection while the map screen is shown and
    the map has loaded: the commit runs the marker effect, which rebuilds
    for the new selection. *)
Lemma chip_click_rebuilds (c : POICategory) (st : State) (m : nat) :
  mounted st = true -> mapRef st = Some m ->
  isLoading st = false -> mapError st = None ->
  c <> selectedCategory st ->
  step (ChipClick c) st
  = Some (addMarkers c (set_containerRef (Some map_container)
                                         (setSelectedCategory c st))).
Proof.
  intros Hmo Hm Hl He Hc.
  unfold step, render, commit, render, markersEffect.
  rewrite Hmo. cbn [negb mapError setSelectedCategory set_containerRef mapRef isLoading
                    selectedCategory].
  rewrite He, Hm, Hl.
  destruct (category_eqb (selectedCategory st) c) eqn:E.
  - apply category_eqb_eq in E. congruence.
  - reflexivity.
Qed.

(** ** The marker rebuild *)

(** C1. Once [addMarkers] has run on an existing map, for any filter [f] and
    any markers held before, the held markers are as many as the POIs of
    category [f] (all POIs under ['all']); a POI has a marker exactly when it
    is in the store and passes [f]; no POI and no handle occurs twice; and,
    when every marker element on a map was held before the call, the marker
    elements on the map are those of the held markers, one each. *)
Theorem addMarkers_marker_set (f : POICategory) (st : State) (m : nat) :
  mapRef st = Some m ->
  List.length (markersRef (addMarkers f st)) = poi_count f
  /\ (forall poi, In (Some poi) (map marker_poi (markersRef (addMarkers f st)))
                  <-> In poi PARIS_POIS /\ passes f poi)
  /\ NoDup (map marker_poi (markersRef (addMarkers f st)))
  /\ NoDup (map marker_handle (markersRef (addMarkers f st)))
  /\ (dom_held st ->
      dom_markers (world (addMarkers f st))
      = map (fun mk => (m, marker_handle mk)) (markersRef (addMarkers f st))).
Proof.
  intros Hm.
  split; [|split; [|split; [|split]]]; [| | | |now apply addMarkers_dom];
    rewrite (addMarkers_eq f st m Hm); simpl markersRef.
  - now rewrite markers_from_length, poi_count_filtered.
  - intros poi. rewrite markers_from_poi, <- filteredPOIs_passes. split.
    + intros Hin. apply in_map_iff in Hin. destruct Hin as [p [Heq Hp]].
      now injection Heq as <-.
    + apply in_map.
  - rewrite markers_from_poi. apply Some_NoDup, filteredPOIs_NoDup.
  - apply markers_from_NoDup.
Qed.

(** C2. A rebuild for [f2] after a rebuild for [f1]: every marker of the
    first rebuild is off the map and no longer held; the old markers are all
    gone before the first new one is made; the markers on the map are the
    held ones; and each of them stands for a POI that [f2] lets through.
    In a reachable state with a loaded map and the map screen shown, a chip
    click that changes the filter to [f2] is such a rebuild: afterwards the
    held markers are those of the POIs that [f2] lets through, in store
    order, and they are what the map carries. *)
Theorem addMarkers_no_stale_marker (f1 f2 : POICategory) (st : State) (m : nat) :
  mapRef st = Some m ->
  dom_held st ->
  (forall mk, In mk (markersRef (addMarkers f1 st)) ->
     ~ In (marker_handle mk)
          (map snd (dom_markers (world (addMarkers f2 (addMarkers f1 st)))))
     /\ ~ In (marker_handle mk)
             (map marker_handle (markersRef (addMarkers f2 (addMarkers f1 st)))))
  /\ addMarkers f2 (addMarkers f1 st)
     = fold_left (addMarker m) (filteredPOIs f2) (clearMarkers (addMarkers f1 st))
  /\ markersRef (clearMarkers (addMarkers f1 st)) = []
  /\ dom_markers (world (clearMarkers (addMarkers f1 st))) = []
  /\ dom_markers (world (addMarkers f2 (addMarkers f1 st)))
     = map (fun mk => (m, marker_handle mk))
           (markersRef (addMarkers f2 (addMarkers f1 st)))
  /\ (forall mk, In mk (markersRef (addMarkers f2 (addMarkers f1 st))) ->
        exists poi, marker_poi mk = Some poi /\ In poi PARIS_POIS /\ passes f2 poi)
  /\ (reachable st -> isLoading st = false -> mapError st = None ->
      f2 <> selectedCategory st ->
      exists st',
        step (ChipClick f2) st = Some st'
        /\ selectedCategory st' = f2
        /\ map marker_poi (markersRef st') = map Some (filteredPOIs f2)
        /\ dom_markers (world st')
           = map (fun mk => (m, marker_handle mk)) (markersRef st')).
Proof.
  intros Hm Hheld.
  assert (Hm1 : mapRef (addMarkers f1 st) = Some m)
    by (rewrite (addMarkers_eq f1 st m Hm); exact Hm).
  assert (Hheld1 : dom_held (addMarkers f1 st)) by now apply addMarkers_dom_held.
  assert (Hdom2 := addMarkers_dom f2 (addMarkers f1 st) m Hm1 Hheld1).
  assert (Hold : forall mk, In mk (markersRef (addMarkers f1 st)) ->
                            marker_handle mk < next_handle (world (addMarkers f1 st))).
  { intros mk Hin. rewrite (addMarkers_eq f1 st m Hm) in Hin |- *. simpl in Hin |- *.
    apply (in_map marker_handle) in Hin. apply markers_from_bounds in Hin. lia. }
  assert (Hnew : forall h, In h (map marker_handle (markersRef (addMarkers f2 (addMarkers f1 st)))) ->
                           next_handle (world (addMarkers f1 st)) <= h).
  { intros h Hin. rewrite (addMarkers_eq f2 (addMarkers f1 st) m Hm1) in Hin. simpl in Hin.
    apply markers_from_bounds in Hin. lia. }
  assert (Hgone : forall mk, In mk (markersRef (addMarkers f1 st)) ->
                    ~ In (marker_handle mk)
                         (map marker_handle (markersRef (addMarkers f2 (addMarkers f1 st))))).
  { intros mk Hin Hin2. apply Hold in Hin. apply Hnew in Hin2. lia. }
  split; [|split; [|split; [|split; [|split; [|split]]]]].
  - intros mk Hin. split; [|now apply Hgone].
    rewrite Hdom2, map_map. simpl. now apply Hgone.
  - unfold addMarkers at 1. now rewrite Hm1.
  - reflexivity.
  - rewrite clearMarkers_eq. simpl. now apply dom_held_cleared.
  - exact Hdom2.
  - intros mk Hin.
    assert (Hp : In (marker_poi mk) (map marker_poi (markersRef (addMarkers f2 (addMarkers f1 st)))))
      by now apply in_map.
    rewrite (addMarkers_eq f2 (addMarkers f1 st) m Hm1) in Hp. simpl in Hp.
    rewrite markers_from_poi in Hp. apply in_map_iff in Hp.
    destruct Hp as [poi [Heq Hpoi]]. exists poi. split; [now symmetry|].
    now apply filteredPOIs_passes.
  - intros Hr Hl He Hc. apply reachable_inv in Hr.
    assert (Hmo : mounted st = true).
    { destruct (mounted st) eqn:Hmo; [reflexivity|].
      rewrite (inv_unmounted st Hr Hmo) in Hm. discriminate. }
    rewrite (chip_click_rebuilds f2 st m Hmo Hm Hl He Hc).
    set (st1 := set_containerRef (Some map_container) (setSelectedCategory f2 st)).
    assert (Hm1' : mapRef st1 = Some m) by exact Hm.
    assert (Hheld1' : dom_held st1) by exact Hheld.
    eexists. split; [reflexivity|]. split; [|split].
    + now rewrite (proj1 (proj2 (proj2 (proj2 (proj2 (addMarkers_frame f2 st1)))))).
    + rewrite (addMarkers_eq f2 st1 m Hm1'). cbn [markersRef set_markersRef].
      apply markers_from_poi.
    + now apply addMarkers_dom.
Qed.

(** C5. Running [addMarkers] a second time with the same filter leaves as
    many held markers as the first run, for the same POIs in the same order;
    from a state where every marker element is held, the map too carries as
    many marker elements after the second run as after the first. *)
Theorem addMarkers_twice_same_count (f : POICategory) (st : State) :
  List.length (markersRef (addMarkers f (addMarkers f st)))
  = List.length (markersRef (addMarkers f st))
  /\ map marker_poi (markersRef (addMarkers f (addMarkers f st)))
     = map marker_poi (markersRef (addMarkers f st))
  /\ (dom_held st ->
      List.length (dom_markers (world (addMarkers f (addMarkers f st))))
      = List.length (dom_markers (world (addMarkers f st)))).
Proof.
  destruct (mapRef st) as [m|] eqn:Hm.
  - assert (Hm1 : mapRef (addMarkers f st) = Some m)
      by (rewrite (addMarkers_eq f st m Hm); exact Hm).
    split; [|split].
    + rewrite (addMarkers_eq f (addMarkers f st) m Hm1), (addMarkers_eq f st m Hm). simpl.
      now rewrite !markers_from_length.
    + rewrite (addMarkers_eq f (addMarkers f st) m Hm1), (addMarkers_eq f st m Hm). simpl.
      now rewrite !markers_from_poi.
    + intros Hheld.
      rewrite (addMarkers_dom f (addMarkers f st) m Hm1 (addMarkers_dom_held f st Hheld)).
      rewrite (addMarkers_dom f st m Hm Hheld).
      rewrite !length_map.
      rewrite (addMarkers_eq f (addMarkers f st) m Hm1), (addMarkers_eq f st m Hm). simpl.
      now rewrite !markers_from_length.
  - rewrite !(addMarkers_no_map f st Hm). auto.
Qed.

(** C6. The store has 8 POIs: 2 landmarks, 2 art, 1 history, 1 culture and
    2 food. [addMarkers] under filter ['food'] on an existing map holds
    exactly two markers, set at the coordinates of the POIs with ids 5 and
    8. *)
Theorem addMarkers_food_scenario (st : State) (m : nat) :
  mapRef st = Some m ->
  List.length PARIS_POIS = 8
  /\ map poi_count [landmarks; art; history; culture; food] = [2; 2; 1; 1; 2]
  /\ exists poi5 poi8,
       poi_by_id "5" = Some poi5 /\ poi_by_id "8" = Some poi8
       /\ map marker_lngLat (markersRef (addMarkers food st))
          = [Some (coordinates poi5); Some (coordinates poi8)].
Proof.
  intros Hm. split; [reflexivity | split; [reflexivity|]].
  rewrite (addMarkers_eq food st m Hm). cbn [markersRef set_markersRef].
  rewrite markers_from_lngLat.
  do 2 eexists. repeat split; reflexivity.
Qed.

(** ** Readiness *)



(** ** The error path *)

(** C3 (the code departs from this claim). A component is mounted, the map
    constructor returns, and the map then fires [error] before [load]. The
    error panel is rendered, but the marker effect runs on the change of
    [isLoading], finds a map, and creates the eight markers of filter
    ['all'] on it. No chip can be clicked from the error panel. When the
    constructor raises instead, the same panel comes with no marker. *)
Theorem map_error_event_creates_markers :
  exists st,
    run [MapFailure] (mount false empty_world) = Some st
    /\ render st = ErrorPanel "Map Error" "Failed to load map"
    /\ List.length (markersRef st) = 8
    /\ List.length (markers_on 0 (world st)) = 8
    /\ step (ChipClick food) st = None
    /\ render (mount true empty_world) = ErrorPanel "Map Error" "Failed to initialize map"
    /\ markersRef (mount true empty_world) = []
    /\ dom_markers (world (mount true empty_world)) = [].
Proof.
  eexists. split; [reflexivity|]. repeat split.
Qed.

(** ** The filter bar *)

(** C7. Whatever the selection, the filter bar has one chip per category in
    the order all, landmarks, food, art, history, culture, each with the icon
    and label of its category; a chip carries a badge exactly when it is the
    selected one, and the badge is the printed number of POIs of that
    category (of all POIs for ['all']). With ['all'] selected the badge
    reads 8. *)
Theorem filterBar_chips (selected : POICategory) :
  map chip_key (filterBar selected) = [all; landmarks; food; art; history; culture]
  /\ map (fun chip => (chip_icon chip, chip_label chip)) (filterBar selected)
     = map (fun c => (icon c, label c)) CATEGORIES
  /\ Forall (fun chip =>
               chip_selected chip = category_eqb (chip_key chip) selected
               /\ chip_badge chip
                  = if category_eqb (chip_key chip) selected
                    then Some (number_text (poi_count selected))
                    else None)
            (filterBar selected)
  /\ map chip_badge (filterBar all) = [Some "8"; None; None; None; None; None].
Proof.
  destruct selected; repeat split; repeat constructor.
Qed.

(** ** Popups *)

Lemma contains_here (sub rest : string) : contains (sub ^^ rest) sub.
Proof. exists EmptyString, rest. reflexivity. Qed.

Lemma contains_later (a s sub : string) : contains s sub -> contains (a ^^ s) sub.
Proof.
  intros [before [rest ->]]. exists (a ^^ before), rest.
  now rewrite append_assoc.
Qed.

Ltac find_substring :=
  repeat first [apply contains_here | apply contains_later].




(** ** Teardown and initialization *)

Lemma cleanup_dom_subset (st : State) (e : nat * nat) :
  In e (dom_markers (world (cleanup st))) ->
  In e (filter (not_held (markersRef st)) (dom_markers (world st)))
  /\ mapRef st <> Some (fst e).
Proof.
  unfold cleanup. rewrite clearMarkers_eq.
  cbn [mapRef set_markersRef set_world].
  destruct (mapRef st) as [m|]; simpl.
  - intros Hin. apply filter_In in Hin. destruct Hin as [Hin Hne]. split; [assumption|].
    intros [= ->]. rewrite Nat.eqb_refl in Hne. discriminate.
  - intros Hin. split; [assumption | discriminate].
Qed.

(** C9. The cleanup of the initialization effect, run in any state at all:
    the marker list is empty and the map reference cleared afterwards, no
    marker that was held is left on any map, and the map that was referenced
    no longer exists and has nothing in its container. In every reachable
    state of a mounted component, whatever [isLoading] and [mapError] are,
    unmounting runs that cleanup, and then no map and no marker element is
    left at all. *)
Theorem cleanup_releases_all (st : State) :
  markersRef (cleanup st) = []
  /\ mapRef (cleanup st) = None
  /\ (forall mk, In mk (markersRef st) ->
        ~ In (marker_handle mk) (map snd (dom_markers (world (cleanup st)))))
  /\ (forall m, mapRef st = Some m ->
        ~ In m (live_maps (world (cleanup st)))
        /\ markers_on m (world (cleanup st)) = [])
  /\ (reachable st -> mounted st = true ->
      step Unmount st
      = Some (set_mounted false
                (set_cleanup_held false (cleanup (set_containerRef None st))))
      /\ live_maps (world (cleanup (set_containerRef None st))) = []
      /\ dom_markers (world (cleanup (set_containerRef None st))) = []).
Proof.
  split; [|split; [|split; [|split]]].
  - unfold cleanup, clearMarkers. cbn [mapRef set_markersRef set_world].
    now destruct (mapRef st).
  - unfold cleanup, clearMarkers. cbn [mapRef set_markersRef set_world].
    destruct (mapRef st) eqn:Hm; [reflexivity | exact Hm].
  - intros mk Hmk Hin. apply in_map_iff in Hin. destruct Hin as [e [Heq He]].
    apply cleanup_dom_subset in He. destruct He as [He _].
    apply filter_In in He. destruct He as [_ Hnh].
    assert (Hf : not_held (markersRef st) e = false).
    { apply not_held_spec. rewrite Heq. now apply in_map. }
    congruence.
  - intros m Hm. split.
    + unfold cleanup, clearMarkers. cbn [mapRef set_markersRef set_world]. rewrite Hm.
      cbn [world set_mapRef set_world Map_remove live_maps].
      intros Hin. apply filter_In in Hin. destruct Hin as [_ Hne].
      rewrite Nat.eqb_refl in Hne. discriminate.
    + unfold markers_on.
      destruct (filter _ _) as [|e rest] eqn:Hf; [reflexivity|].
      assert (He : In e (filter (fun e => fst e =? m) (dom_markers (world (cleanup st)))))
        by (rewrite Hf; now left).
      apply filter_In in He. destruct He as [He Heq].
      apply cleanup_dom_subset in He. destruct He as [_ Hne].
      apply Nat.eqb_eq in Heq. congruence.
  - intros Hr Hmo. apply reachable_inv in Hr.
    destruct (inv_unmount st Hr Hmo) as [_ [_ [_ [Hlive Hdom]]]].
    split; [|now split].
    unfold step. rewrite Hmo. cbn [negb cleanup_held set_containerRef].
    now rewrite (inv_cleanup st Hr Hmo).
Qed.

(** C10. The initialization effect returns the state as it is, whether or
    not the constructor would raise, when a map is already referenced or the
    container is absent. In every reachable state, runs in which the effect
    is invoked again included, invoking it once more changes nothing, and
    the maps in existence are the referenced one, if any: never two. *)
Theorem initEffect_at_most_one_map (throws : bool) (st : State) :
  (mapRef st <> None \/ containerRef st = None -> initEffect throws st = st)
  /\ (reachable st ->
      initEffect throws st = st
      /\ live_maps (world st) = match mapRef st with Some m => [m] | None => [] end
      /\ List.length (live_maps (world st)) <= 1).
Proof.
  split.
  - unfold initEffect. intros [Hm | Hc].
    + destruct (mapRef st); [now destruct (containerRef st) | congruence].
    + now rewrite Hc.
  - intros Hr. apply reachable_inv in Hr.
    split; [now apply inv_initEffect | split; [apply (inv_maps st Hr)|]].
    rewrite (inv_maps st Hr). destruct (mapRef st); simpl; lia.
Qed.

(** ** The theorems at concrete states *)

Lemma loading_example_reachable : reachable loading_example.
Proof. exists false, []. vm_compute. reflexivity. Defined.

Lemma loaded_example_reachable : reachable loaded_example.
Proof. exists false, [MapLoad]. vm_compute. reflexivity. Defined.

Lemma loaded_example_map : mapRef loaded_example = Some 0.
Proof. vm_compute. reflexivity. Defined.

Lemma loaded_example_mounted : mounted loaded_example = true.
Proof. vm_compute. reflexivity. Defined.

Lemma loaded_example_loaded : isLoading loaded_example = false.
Proof. vm_compute. reflexivity. Defined.

Lemma loaded_example_no_error : mapError loaded_example = None.
Proof. vm_compute. reflexivity. Defined.

Lemma loaded_example_selection : food <> selectedCategory loaded_example.
Proof. intros H. vm_compute in H. discriminate. Defined.

Lemma loading_example_loading : isLoading loading_example = true.
Proof. vm_compute. reflexivity. Defined.

Lemma loaded_example_dom_held : dom_held loaded_example.
Proof.
  intros e He. vm_compute in He.
  repeat (destruct He as [<- | He]; [vm_compute; tauto|]).
  contradiction.
Defined.

Lemma addMarkers_marker_set_witness :
  mapRef loaded_example = Some 0
  /\ dom_held loaded_example
  /\ List.length (markersRef (addMarkers food loaded_example)) = 2
  /\ dom_markers (world (addMarkers food loaded_example))
     = map (fun mk => (0, marker_handle mk)) (markersRef (addMarkers food loaded_example)).
Proof.
  destruct (addMarkers_marker_set food loaded_example 0 loaded_example_map)
    as [Hcount [_ [_ [_ Hdom]]]].
  split; [exact loaded_example_map | split; [exact loaded_example_dom_held|]].
  split; [exact Hcount | exact (Hdom loaded_example_dom_held)].
Defined.

Lemma addMarkers_no_stale_marker_witness :
  mapRef loaded_example = Some 0
  /\ dom_held loaded_example
  /\ dom_markers (world (addMarkers food (addMarkers art loaded_example)))
     = map (fun mk => (0, marker_handle mk))
           (markersRef (addMarkers food (addMarkers art loaded_example)))
  /\ reachable loaded_example
  /\ isLoading loaded_example = false
  /\ mapError loaded_example = None
  /\ food <> selectedCategory loaded_example
  /\ exists st',
       step (ChipClick food) loaded_example = Some st'
       /\ selectedCategory st' = food
       /\ map marker_poi (markersRef st') = map Some (filteredPOIs food)
       /\ dom_markers (world st') = map (fun mk => (0, marker_handle mk)) (markersRef st').
Proof.
  destruct (addMarkers_no_stale_marker art food loaded_example 0 loaded_example_map
              loaded_example_dom_held) as [_ [_ [_ [_ [Hdom [_ Hclick]]]]]].
  split; [exact loaded_example_map | split; [exact loaded_example_dom_held|]].
  split; [exact Hdom | split; [exact loaded_example_reachable|]].
  split; [exact loaded_example_loaded | split; [exact loaded_example_no_error|]].
  split; [exact loaded_example_selection|].
  exact (Hclick loaded_example_reachable loaded_example_loaded
                loaded_example_no_error loaded_example_selection).
Defined.


Lemma addMarkers_twice_same_count_witness :
  dom_held loaded_example
  /\ List.length (dom_markers (world (addMarkers food (addMarkers food loaded_example))))
     = List.length (dom_markers (world (addMarkers food loaded_example))).
Proof.
  split; [exact loaded_example_dom_held|].
  apply (addMarkers_twice_same_count food loaded_example).
  exact loaded_example_dom_held.
Defined.

Lemma addMarkers_food_scenario_witness :
  mapRef loaded_example = Some 0
  /\ List.length (markersRef (addMarkers food loaded_example)) = 2.
Proof.
  split; [exact loaded_example_map|].
  destruct (addMarkers_food_scenario loaded_example 0 loaded_example_map)
    as [_ [_ [poi5 [poi8 [_ [_ Hcoords]]]]]].
  rewrite <- (length_map marker_lngLat), Hcoords. reflexivity.
Defined.


Lemma cleanup_releases_all_witness :
  reachable loaded_example
  /\ mounted loaded_example = true
  /\ mapRef loaded_example = Some 0
  /\ ~ In 0 (live_maps (world (cleanup loaded_example)))
  /\ markers_on 0 (world (cleanup loaded_example)) = []
  /\ step Unmount loaded_example
     = Some (set_mounted false
               (set_cleanup_held false (cleanup (set_containerRef None loaded_example))))
  /\ live_maps (world (cleanup (set_containerRef None loaded_example))) = []
  /\ dom_markers (world (cleanup (set_containerRef None loaded_example))) = [].
Proof.
  destruct (cleanup_releases_all loaded_example) as [_ [_ [_ [Hmap Hunmount]]]].
  split; [exact loaded_example_reachable | split; [exact loaded_example_mounted|]].
  split; [exact loaded_example_map|].
  split; [exact (proj1 (Hmap 0 loaded_example_map))|].
  split; [exact (proj2 (Hmap 0 loaded_example_map))|].
  exact (Hunmount loaded_example_reachable loaded_example_mounted).
Defined.

Lemma initEffect_at_most_one_map_witness :
  reachable loaded_example
  /\ mapRef loaded_example <> None
  /\ initEffect false loaded_example = loaded_example
  /\ List.length (live_maps (world loaded_example)) <= 1.
Proof.
  destruct (initEffect_at_most_one_map false loaded_example) as [Hguard Hreach].
  assert (Hm : mapRef loaded_example <> None)
    by (rewrite loaded_example_map; discriminate).
  split; [exact loaded_example_reachable | split; [exact Hm|]].
  split.
  - apply Hguard. left. exact Hm.
  - apply (Hreach loaded_example_reachable).
Defined.

(** The click on the first marker of a loaded map, through the event
    system: the event can happen, and once the click has gone on to the map
    no popup is left open. *)
Example click_first_marker :
  option_map (fun st => open_popups (world st))
             (run [MapLoad; MarkerEvent click 17] loading_example)
  = Some [].
Proof. vm_compute. reflexivity. Qed.

(** A filter chosen while the map loads is the one the markers follow once
    it has loaded: the load handler builds the markers of ['all'], and the
    effect then rebuilds for the selection. *)
Example select_then_load :
  option_map (fun st => map marker_poi (markersRef st))
             (run [ChipClick food; MapLoad] loading_example)
  = Some (map Some (filteredPOIs food)).
Proof. vm_compute. reflexivity. Qed.

(** ** Marker styling *)

Lemma getCategoryColor_inj (a b : POICategory) :
  getCategoryColor a = getCategoryColor b -> a = b.
Proof. destruct a, b; intros H; try reflexivity; vm_compute in H; discriminate H. Qed.

Lemma getCategoryIcon_inj (a b : POICategory) :
  getCategoryIcon a = getCategoryIcon b -> a = b.
Proof. destruct a, b; intros H; try reflexivity; vm_compute in H; discriminate H. Qed.

(** X1. The color and the icon of a category tell the category: two
    categories with the same color, or the same icon, are the same one. In
    particular the fallback color and icon of ['all'] are given to no other
    category. *)
Theorem category_style_injective (a b : POICategory) :
  (getCategoryColor a = getCategoryColor b <-> a = b)
  /\ (getCategoryIcon a = getCategoryIcon b <-> a = b).
Proof.
  split; split; try (intros ->; reflexivity).
  - apply getCategoryColor_inj.
  - apply getCategoryIcon_inj.
Qed.

(** X2. The element built for a marker depends on the category of the POI
    and on nothing else of it, and differs between categories; its style
    text carries the color of the category, its content is the icon. *)
Theorem createMarkerElement_by_category (p q : POI) :
  (createMarkerElement p = createMarkerElement q <-> category p = category q)
  /\ contains (cssText (createMarkerElement p)) (getCategoryColor (category p))
  /\ innerHTML (createMarkerElement p) = getCategoryIcon (category p).
Proof.
  split; [split|split].
  - intros H. apply (f_equal innerHTML) in H. now apply getCategoryIcon_inj.
  - unfold createMarkerElement. now intros ->.
  - unfold createMarkerElement. cbn [cssText addEventListener]. find_substring.
  - reflexivity.
Qed.

(** ** Writing a marker's transform *)

Lemma set_transform_handles (h : nat) (v : string) (st : State) :
  map marker_handle (markersRef (set_transform h v st)) = map marker_handle (markersRef st)
  /\ map marker_poi (markersRef (set_transform h v st)) = map marker_poi (markersRef st)
  /\ map marker_lngLat (markersRef (set_transform h v st)) = map marker_lngLat (markersRef st)
  /\ transforms (set_transform h v st)
     = map (fun mk => if marker_handle mk =? h then v else transform (marker_element mk))
           (markersRef st).
Proof.
  unfold transforms, set_transform. cbn [markersRef set_markersRef].
  rewrite !map_map.
  repeat split; apply map_ext; intros mk; now destruct (marker_handle mk =? h).
Qed.

(** ** What a rebuild and a teardown leave alone *)

Lemma addMarkers_rebuild_frame (f : POICategory) (st : State) :
  rebuild_frame (addMarkers f st) st.
Proof.
  destruct (addMarkers_frame f st)
    as [F1 [F2 [F3 [F4 [F5 [F6 [F7 [F8 [F9 [F10 [F11 F12]]]]]]]]]]].
  unfold rebuild_frame. tauto.
Qed.

Lemma rebuild_frame_refl (st : State) : rebuild_frame st st.
Proof. unfold rebuild_frame. tauto. Qed.

Lemma rebuild_frame_trans (st2 st1 st : State) :
  rebuild_frame st2 st1 -> rebuild_frame st1 st -> rebuild_frame st2 st.
Proof. unfold rebuild_frame. intuition congruence. Qed.

Lemma markersEffect_rebuild_frame (st : State) : rebuild_frame (markersEffect st) st.
Proof.
  unfold markersEffect. destruct (mapRef st); [|apply rebuild_frame_refl].
  destruct (negb (isLoading st)); [apply addMarkers_rebuild_frame | apply rebuild_frame_refl].
Qed.

Lemma commit_rebuild_frame (prev st : State) : rebuild_frame (commit prev st) st.
Proof.
  unfold commit. destruct (_ || _).
  - eapply rebuild_frame_trans; [apply markersEffect_rebuild_frame|].
    unfold rebuild_frame. simpl. tauto.
  - unfold rebuild_frame. simpl. tauto.
Qed.

(** X13. A rebuild changes the held markers, the marker elements on the map
    and the handle allocator, and nothing else: not the map reference, the
    selection, the loading flag or the error, not the maps in existence or
    their handlers, and not the open popups, which it never closes. A chip
    click changes the selection besides, and no more. *)
Theorem rebuild_touches_markers_only (f : POICategory) (st : State) :
  rebuild_frame (addMarkers f st) st
  /\ containerRef (addMarkers f st) = containerRef st
  /\ (forall st', step (ChipClick f) st = Some st' ->
        selectedCategory st' = f
        /\ rebuild_frame st' (setSelectedCategory f st)).
Proof.
  split; [apply addMarkers_rebuild_frame | split].
  - apply addMarkers_frame.
  - unfold step. destruct (negb (mounted st)); [discriminate|].
    destruct (render st); [discriminate|].
    intros st' [= <-].
    pose proof (commit_rebuild_frame st (setSelectedCategory f st)) as Hf.
    split; [apply Hf | exact Hf].
Qed.

(** X12. The teardown is idempotent, and nothing rebuilds after it: run on
    a state that was torn down, the cleanup, [addMarkers] and the marker
    effect all return that state. *)
Theorem cleanup_idempotent (f : POICategory) (st : State) :
  cleanup (cleanup st) = cleanup st
  /\ addMarkers f (cleanup st) = cleanup st
  /\ markersEffect (cleanup st) = cleanup st.
Proof.
  assert (Hm : mapRef (cleanup st) = None).
  { unfold cleanup, clearMarkers. cbn [mapRef set_markersRef set_world].
    destruct (mapRef st) eqn:E; [reflexivity | exact E]. }
  split; [|split].
  - unfold cleanup at 1. unfold clearMarkers.
    cbn [mapRef set_markersRef set_world]. rewrite Hm.
    unfold cleanup, clearMarkers. cbn [mapRef set_markersRef set_world].
    destruct (mapRef st); reflexivity.
  - now apply addMarkers_no_map.
  - unfold markersEffect. now rewrite Hm.
Qed.

(** ** What no event undoes *)

Lemma no_regress_refl (st : State) : no_regress st st.
Proof. unfold no_regress. tauto. Qed.

Lemma no_regress_trans (st s1 s2 : State) :
  no_regress st s1 -> no_regress s1 s2 -> no_regress st s2.
Proof. unfold no_regress. intuition congruence. Qed.

Lemma rebuild_frame_no_regress (s st : State) : rebuild_frame s st -> no_regress st s.
Proof.
  intros [_ [He [Hl [Hs _]]]]. unfold no_regress. rewrite He, Hl, Hs. tauto.
Qed.

Lemma onLoad_no_regress (sel : POICategory) (st : State) : no_regress st (onLoad sel st).
Proof.
  unfold onLoad.
  eapply no_regress_trans; [|apply rebuild_frame_no_regress, addMarkers_rebuild_frame].
  unfold no_regress. simpl. tauto.
Qed.

Lemma onError_no_regress (st : State) : no_regress st (onError st).
Proof.
  unfold onError, no_regress. simpl. repeat split.
  intros _. now exists "F"%char, "ailed to load map".
Qed.

Lemma fire_no_regress (m : nat) (pick : MapHandler -> option (State -> State)) (st : State) :
  (forall hd f s, pick hd = Some f -> no_regress s (f s)) ->
  no_regress st (fire m pick st).
Proof.
  intros Hpick.
  apply (fire_preserves (fun s => no_regress st s)); [|apply no_regress_refl].
  intros hd f s Hf Hs. eapply no_regress_trans; [exact Hs | now apply (Hpick hd)].
Qed.

Lemma initEffect_no_regress (throws : bool) (st : State) :
  no_regress st (initEffect throws st).
Proof.
  unfold initEffect.
  destruct (containerRef st); [|apply no_regress_refl].
  destruct (mapRef st); [apply no_regress_refl|].
  destruct throws; unfold no_regress; simpl; repeat split; try tauto.
  intros _. now exists "F"%char, "ailed to initialize map".
Qed.

Lemma cleanup_no_regress (st : State) : no_regress st (cleanup st).
Proof.
  unfold cleanup, clearMarkers. cbn [mapRef set_markersRef set_world].
  destruct (mapRef st); unfold no_regress; simpl; tauto.
Qed.

Lemma run_listener_cells (h : nat) (l : Listener) (st : State) (flag : bool) :
  same_cells (fst (run_listener h l (st, flag))) st.
Proof.
  destruct l as [v | popup poi]; simpl.
  - unfold same_cells. simpl. repeat split; try apply set_transform_handles.
  - destruct (mapRef st); unfold same_cells; simpl; tauto.
Qed.

Lemma same_cells_trans (st2 st1 st : State) :
  same_cells st2 st1 -> same_cells st1 st -> same_cells st2 st.
Proof. unfold same_cells. intuition congruence. Qed.

Lemma dispatch_cells (ty : EventType) (mk : Marker) (st : State) :
  same_cells (fst (dispatch ty mk st)) st.
Proof.
  unfold dispatch.
  generalize (listeners (marker_element mk)) as ls. intros ls.
  generalize false as flag. revert st.
  induction ls as [|e ls IH]; intros st flag; simpl; [unfold same_cells; tauto|].
  set (acc := match fst e with mouseenter => _ | mouseleave => _ | click => _ end).
  assert (Hacc : same_cells (fst acc) st).
  { subst acc. destruct (fst e), ty;
      first [apply run_listener_cells | unfold same_cells; tauto]. }
  destruct acc as [st1 flag1]. simpl in Hacc.
  exact (same_cells_trans _ _ _ (IH st1 flag1) Hacc).
Qed.

Lemma dispatch_no_regress (ty : EventType) (mk : Marker) (st : State) :
  no_regress st (fst (dispatch ty mk st)).
Proof.
  destruct (dispatch_cells ty mk st) as [Hs _].
  destruct (dispatch_frame ty mk st) as [_ [_ [_ [He [Hl _]]]]].
  unfold no_regress. rewrite Hs, He, Hl. tauto.
Qed.

Lemma bubble_no_regress (ty : EventType) (m : nat) (st : State) :
  no_regress st (bubble ty m st).
Proof.
  destruct ty; unfold no_regress, bubble;
    cbn [selectedCategory isLoading mapError set_world]; tauto.
Qed.

(** Every event but a chip click keeps the selection, the loaded state and
    the error state; a chip click keeps the last two. *)
Lemma step_no_regress (ev : Event) (st st' : State) :
  step ev st = Some st' ->
  selectedCategory st' = last_selection [ev] (selectedCategory st)
  /\ (isLoading st = false -> isLoading st' = false)
  /\ (truthy (mapError st) -> truthy (mapError st')).
Proof.
  unfold step. destruct (negb (mounted st)); [discriminate|].
  destruct ev as [| |c|ty h|throws|]; cbn [last_selection].
  - destruct (mapRef st); [|discriminate].
    destruct (existsb _ _); [discriminate|]. intros [= <-].
    apply no_regress_trans with (s1 := set_world (mark_loaded n (world st)) st);
      [unfold no_regress; simpl; tauto|].
    eapply no_regress_trans; [|apply rebuild_frame_no_regress, commit_rebuild_frame].
    apply fire_no_regress. intros [sel|] f s Hf; simpl in Hf; [|discriminate].
    injection Hf as <-. apply onLoad_no_regress.
  - destruct (mapRef st); [|discriminate]. intros [= <-].
    eapply no_regress_trans; [|apply rebuild_frame_no_regress, commit_rebuild_frame].
    apply fire_no_regress. intros [sel|] f s Hf; simpl in Hf; [discriminate|].
    injection Hf as <-. apply onError_no_regress.
  - destruct (render st); [discriminate|]. intros [= <-].
    destruct (commit_rebuild_frame st (setSelectedCategory c st)) as [_ [He [Hl [Hs _]]]].
    rewrite He, Hl, Hs. simpl. tauto.
  - destruct (render st); [discriminate|].
    destruct (find _ (dom_markers _)) as [e|]; [|discriminate].
    destruct (find _ _) as [mk|]; [|discriminate].
    intros [= <-].
    eapply no_regress_trans; [apply dispatch_no_regress | apply bubble_no_regress].
  - intros [= <-].
    eapply no_regress_trans; [apply initEffect_no_regress|].
    apply rebuild_frame_no_regress, commit_rebuild_frame.
  - intros [= <-]. cbn [cleanup_held set_containerRef].
    destruct (cleanup_held st).
    + apply no_regress_trans with (s1 := cleanup (set_containerRef None st));
        [apply (cleanup_no_regress (set_containerRef None st))
        | unfold no_regress;
          cbn [selectedCategory isLoading mapError set_mounted set_cleanup_held]; tauto].
    + unfold no_regress. simpl. tauto.
Qed.

Lemma step_error_disables (ev : Event) (st st' : State) :
  truthy (mapError st) -> step ev st = Some st' -> on_map_screen ev = false.
Proof.
  intros Ht. destruct (render_truthy st Ht) as [h [msg Hr]].
  unfold step. destruct (negb (mounted st)); [discriminate|].
  destruct ev; try reflexivity; rewrite Hr; discriminate.
Qed.

(** X10. The selection changes on chip clicks only: after any sequence of
    events it is the category of the last chip clicked, and the initial one
    when no chip was clicked. *)
Theorem selection_is_last_chip (evs : list Event) :
  forall st st',
    run evs st = Some st' ->
    selectedCategory st' = last_selection evs (selectedCategory st).
Proof.
  induction evs as [|ev evs IH]; intros st st'; simpl.
  - now intros [= <-].
  - destruct (step ev st) as [s1|] eqn:Hs; [|discriminate].
    intros Hrun. rewrite (IH s1 st' Hrun).
    destruct (step_no_regress ev st s1 Hs) as [Hsel _].
    rewrite Hsel. now destruct ev.
Qed.

(** X11. The loading state does not come back: once [isLoading] is false
    it is false after every further sequence of events. *)
Theorem loading_never_returns (evs : list Event) :
  forall st st',
    run evs st = Some st' ->
    isLoading st = false ->
    isLoading st' = false.
Proof.
  induction evs as [|ev evs IH]; intros st st'; simpl.
  - now intros [= <-].
  - destruct (step ev st) as [s1|] eqn:Hs; [|discriminate].
    intros Hrun Hl. apply (IH s1 st' Hrun).
    now apply (step_no_regress ev st s1 Hs).
Qed.

(** X8. An error is final: from a state whose [mapError] is set, every
    sequence of events that can happen contains no chip click and no marker
    event, and ends in a state whose [mapError] is set and whose render is
    the error panel. *)
Theorem error_is_terminal (evs : list Event) :
  forall st st',
    truthy (mapError st) ->
    run evs st = Some st' ->
    truthy (mapError st')
    /\ (exists heading message, render st' = ErrorPanel heading message)
    /\ forallb (fun ev => negb (on_map_screen ev)) evs = true.
Proof.
  induction evs as [|ev evs IH]; intros st st' Ht; simpl.
  - intros [= <-]. split; [assumption | split; [now apply render_truthy | reflexivity]].
  - destruct (step ev st) as [s1|] eqn:Hs; [|discriminate].
    intros Hrun.
    assert (Ht1 : truthy (mapError s1)) by now apply (step_no_regress ev st s1 Hs).
    destruct (IH s1 st' Ht1 Hrun) as [H1 [H2 H3]].
    rewrite (step_error_disables ev st s1 Ht Hs), H3. now repeat split.
Qed.

(** ** Handlers, load record and marker list in reachable states *)

Lemma sync_transfer (s st : State) :
  mapRef s = mapRef st ->
  map_handlers (world s) = map_handlers (world st) ->
  loaded_maps (world s) = loaded_maps (world st) ->
  isLoading s = isLoading st ->
  mapError s = mapError st ->
  map marker_poi (markersRef s) = map marker_poi (markersRef st) ->
  map marker_handle (markersRef s) = map marker_handle (markersRef st) ->
  sync st -> sync s.
Proof.
  intros Hm Hh Hld Hl He Hp Hn [S1 S2 S3 S4 S5].
  constructor; rewrite ?Hm, ?Hh, ?Hld, ?Hl, ?He, ?Hp, ?Hn; try assumption.
  destruct S4 as [Hnil | [f Hf]].
  - left. rewrite Hnil in Hp. now destruct (markersRef s).
  - right. now exists f.
Qed.

Lemma sync_addMarkers (f : POICategory) (st : State) : sync st -> sync (addMarkers f st).
Proof.
  intros Hs. destruct (mapRef st) as [m|] eqn:Hm.
  - rewrite (addMarkers_eq f st m Hm). destruct Hs as [S1 S2 S3 S4 S5].
    constructor;
      cbn [mapRef markersRef isLoading mapError world set_markersRef set_world rebuilt
           map_handlers loaded_maps]; try assumption.
    + right. exists f. apply markers_from_poi.
    + apply markers_from_NoDup.
  - now rewrite addMarkers_no_map.
Qed.

Lemma sync_markersEffect (st : State) : sync st -> sync (markersEffect st).
Proof.
  intros Hs. unfold markersEffect. destruct (mapRef st); [|assumption].
  destruct (negb (isLoading st)); [now apply sync_addMarkers | assumption].
Qed.

Lemma sync_commit (prev st : State) : sync st -> sync (commit prev st).
Proof.
  intros Hs. unfold commit.
  set (st1 := set_containerRef _ st).
  assert (H1 : sync st1) by (apply (sync_transfer st1 st); trivial).
  destruct (_ || _); [now apply sync_markersEffect | assumption].
Qed.

Lemma sync_onLoad (sel : POICategory) (st : State) (m : nat) :
  sync st -> mapRef st = Some m ->
  sync (onLoad sel (set_world (mark_loaded m (world st)) st)).
Proof.
  intros [S1 S2 S3 S4 S5] Hm. unfold onLoad. apply sync_addMarkers.
  constructor; simpl; try assumption; try reflexivity.
  intros m' Hm' _ _. rewrite Hm in Hm'. injection Hm' as <-.
  apply in_or_app. right. now left.
Qed.

Lemma sync_onError (st : State) : sync st -> sync (onError st).
Proof.
  intros [S1 S2 S3 S4 S5]. unfold onError.
  constructor; simpl; try assumption; try reflexivity. discriminate.
Qed.

Lemma fire_load_eq (m : nat) (sel : POICategory) (st : State) :
  map_handlers (world st) = [(m, OnLoad sel); (m, OnError)] ->
  fire m load_handlers st = onLoad sel st.
Proof.
  intros Hh. unfold fire. rewrite Hh. simpl. now rewrite Nat.eqb_refl.
Qed.

Lemma fire_error_eq (m : nat) (sel : POICategory) (st : State) :
  map_handlers (world st) = [(m, OnLoad sel); (m, OnError)] ->
  fire m error_handlers st = onError st.
Proof.
  intros Hh. unfold fire. rewrite Hh. simpl. now rewrite Nat.eqb_refl.
Qed.

Lemma sync_unmount (st : State) :
  sync st ->
  sync (set_mounted false (set_cleanup_held false (cleanup (set_containerRef None st)))).
Proof.
  intros [S1 S2 S3 S4 S5]. unfold cleanup. rewrite clearMarkers_eq.
  cbn [mapRef markersRef world set_containerRef set_markersRef set_world].
  destruct (mapRef st) as [m|] eqn:Hm.
  - constructor; simpl; try discriminate; try (now left); try constructor.
    rewrite S1. simpl. now rewrite Nat.eqb_refl.
  - constructor; simpl; rewrite ?Hm; try discriminate; try (now left); try constructor.
    exact S1.
Qed.

Lemma follows_commit (prev st : State) :
  inv st -> mounted st = true ->
  (selectedCategory prev = selectedCategory st -> isLoading prev = isLoading st ->
   follows st) ->
  follows (commit prev st).
Proof.
  intros Hinv Hmo Hsame.
  pose proof (commit_rebuild_frame prev st) as [Fm [Fe [Fl _]]].
  intros _ Hl He. rewrite Fl in Hl. rewrite Fe in He.
  revert Fm. unfold commit.
  set (st1 := set_containerRef _ st).
  destruct (negb (category_eqb (selectedCategory prev) (selectedCategory st1))
            || negb (Bool.eqb (isLoading prev) (isLoading st1))) eqn:Hd; intros Fm.
  - unfold markersEffect. change (mapRef st1) with (mapRef st).
    change (isLoading st1) with (isLoading st). rewrite Hl. cbn [negb].
    destruct (mapRef st) as [m|] eqn:Hm.
    + rewrite (addMarkers_eq _ st1 m Hm).
      cbn [markersRef selectedCategory set_markersRef set_world].
      apply markers_from_poi.
    + destruct (inv_error st Hinv Hm Hmo) as [ch [rest Ht]]. congruence.
  - apply orb_false_iff in Hd. destruct Hd as [Hd1 Hd2].
    apply negb_false_iff in Hd1, Hd2.
    apply category_eqb_eq in Hd1. apply Bool.eqb_prop in Hd2.
    exact (Hsame Hd1 Hd2 Hmo Hl He).
Qed.

Lemma step_sync (ev : Event) (st st' : State) :
  inv st -> sync st -> follows st -> step ev st = Some st' ->
  sync st' /\ follows st'.
Proof.
  intros Hinv Hs Hf. unfold step.
  destruct (mounted st) eqn:Hmo; simpl; [|discriminate].
  destruct ev as [| |c|ty h|throws|].
  - destruct (mapRef st) as [m|] eqn:Hm; [|discriminate].
    destruct (existsb _ _) eqn:Hex; [discriminate|]. intros [= <-].
    set (st0 := set_world (mark_loaded m (world st)) st).
    assert (Hh0 : map_handlers (world st0) = [(m, OnLoad all); (m, OnError)]).
    { simpl. rewrite (sync_handlers st Hs), Hm. reflexivity. }
    rewrite (fire_load_eq m all st0 Hh0).
    assert (Hinv0 : inv st0).
    { destruct Hinv as [I1 I2 I3 I4 I5 I6 I7 I8]. constructor; simpl; assumption. }
    split; [apply sync_commit; now apply sync_onLoad|].
    apply follows_commit; [now apply inv_onLoad | now rewrite onLoad_mounted|].
    intros _ Hl _ _ He. exfalso.
    assert (Hl0 : isLoading st = false).
    { rewrite Hl. unfold onLoad. now rewrite (proj1 (proj2 (proj2 (addMarkers_rebuild_frame all _)))). }
    assert (He0 : mapError st = None).
    { rewrite <- He. unfold onLoad.
      now rewrite (proj1 (proj2 (addMarkers_rebuild_frame all _))). }
    pose proof (sync_pending st Hs m Hm Hl0 He0) as Hin.
    assert (Hex' : existsb (Nat.eqb m) (loaded_maps (world st)) = true).
    { apply existsb_exists. exists m. split; [assumption | apply Nat.eqb_refl]. }
    congruence.
  - destruct (mapRef st) as [m|] eqn:Hm; [|discriminate]. intros [= <-].
    assert (Hh : map_handlers (world st) = [(m, OnLoad all); (m, OnError)]).
    { rewrite (sync_handlers st Hs), Hm. reflexivity. }
    rewrite (fire_error_eq m all st Hh).
    split; [apply sync_commit; now apply sync_onError|].
    intros _ _ He.
    rewrite (proj1 (proj2 (commit_rebuild_frame st (onError st)))) in He. discriminate.
  - destruct (render st); [discriminate|]. intros [= <-].
    split.
    + apply sync_commit. apply (sync_transfer _ st); trivial.
    + apply follows_commit.
      * destruct Hinv as [I1 I2 I3 I4 I5 I6 I7 I8]. constructor; simpl; assumption.
      * exact Hmo.
      * simpl. intros Hc _ Hmo' Hl He. cbn [markersRef setSelectedCategory selectedCategory].
        rewrite <- Hc. now apply Hf.
  - destruct (render st); [discriminate|].
    destruct (find _ (dom_markers _)) as [e|]; [|discriminate].
    destruct (find _ _) as [mk|]; [|discriminate].
    intros [= <-].
    destruct (dispatch_frame ty mk st) as [F1 [F2 [F3 [F4 [F5 [F6 [F7 [F8 F9]]]]]]]].
    destruct (dispatch_cells ty mk st) as [C1 [C2 [C3 [C4 C5]]]].
    assert (Hs1 : sync (fst (dispatch ty mk st)))
      by (apply (sync_transfer _ st); assumption).
    split; [apply (sync_transfer _ (fst (dispatch ty mk st))); trivial; now destruct ty|].
    intros Hmo' Hl He.
    assert (Hb : forall s, selectedCategory (bubble ty (fst e) s) = selectedCategory s
                           /\ markersRef (bubble ty (fst e) s) = markersRef s
                           /\ isLoading (bubble ty (fst e) s) = isLoading s
                           /\ mapError (bubble ty (fst e) s) = mapError s)
      by (intros s0; now destruct ty).
    destruct (Hb (fst (dispatch ty mk st))) as [B1 [B2 [B3 B4]]].
    rewrite B1, B2, C1, C4. rewrite B3, F5 in Hl. rewrite B4, F4 in He. now apply Hf.
  - intros [= <-]. rewrite inv_initEffect by assumption.
    split; [now apply sync_commit|].
    apply follows_commit; [assumption | assumption | now intros _ _].
  - cbn [cleanup_held set_containerRef].
    rewrite (inv_cleanup st Hinv Hmo). intros [= <-].
    split; [now apply sync_unmount | intros Hmo'; discriminate].
Qed.

Lemma sync_mount (throws : bool) :
  sync (mount throws empty_world) /\ follows (mount throws empty_world).
Proof.
  destruct throws;
    (split; [constructor; simpl; intros;
             try discriminate; try contradiction; try (now left); try constructor|]).
  - intros _ _ He. vm_compute in He. discriminate He.
  - intros _ Hl _. vm_compute in Hl. discriminate Hl.
Qed.

Lemma run_sync (evs : list Event) :
  forall st st', inv st -> sync st -> follows st -> run evs st = Some st' ->
                 sync st' /\ follows st'.
Proof.
  induction evs as [|ev evs IH]; intros st st' Hinv Hs Hf; simpl.
  - intros [= <-]. now split.
  - destruct (step ev st) as [s1|] eqn:Hst; [|discriminate].
    destruct (step_sync ev st s1 Hinv Hs Hf Hst) as [Hs1 Hf1].
    apply IH; try assumption. now apply (step_inv ev st).
Qed.

Lemma reachable_sync (st : State) : reachable st -> sync st /\ follows st.
Proof.
  intros [throws [evs Hrun]].
  destruct (sync_mount throws) as [Hs Hf].
  exact (run_sync evs _ _ (inv_mount throws) Hs Hf Hrun).
Qed.

(** ** The markers shown and the selection *)

Lemma filterBar_badges (selected : POICategory) :
  Forall (fun chip =>
            chip_badge chip
            = if chip_selected chip
              then Some (number_text (poi_count selected))
              else None)
         (filterBar selected)
  /\ List.length (filter chip_selected (filterBar selected)) = 1.
Proof. destruct selected; split; repeat constructor. Qed.

Lemma filteredPOIs_length_le (f : POICategory) :
  List.length (filteredPOIs f) <= List.length PARIS_POIS.
Proof.
  unfold filteredPOIs. destruct (category_eqb f all); [lia | apply filter_length_le].
Qed.

Lemma follows_length (st : State) :
  map marker_poi (markersRef st) = map Some (filteredPOIs (selectedCategory st)) ->
  List.length (markersRef st) = poi_count (selectedCategory st).
Proof.
  intros H. rewrite <- (length_map marker_poi), H, length_map.
  apply poi_count_filtered.
Qed.

(** X4. In every reachable state of a mounted component whose map has
    loaded and that is not in error, whatever chips were clicked and in
    whatever order, before or after the load: the held markers stand for the
    POIs of the selected category, one each in store order, they are as many
    as that category has POIs, and they are what the referenced map
    carries. *)
Theorem markers_follow_selection (st : State) :
  reachable st ->
  mounted st = true -> isLoading st = false -> mapError st = None ->
  map marker_poi (markersRef st) = map Some (filteredPOIs (selectedCategory st))
  /\ List.length (markersRef st) = poi_count (selectedCategory st)
  /\ exists m,
       mapRef st = Some m
       /\ dom_markers (world st) = map (fun mk => (m, marker_handle mk)) (markersRef st).
Proof.
  intros Hr Hmo Hl He.
  destruct (reachable_sync st Hr) as [_ Hf]. apply reachable_inv in Hr.
  pose proof (Hf Hmo Hl He) as Hp.
  split; [exact Hp | split; [now apply follows_length|]].
  destruct (mapRef st) as [m|] eqn:Hm.
  - exists m. split; [reflexivity|]. rewrite (inv_dom st Hr), Hm. reflexivity.
  - destruct (inv_error st Hr Hm Hmo) as [ch [rest Ht]]. congruence.
Qed.

(** X5. In the same states the screen is the map screen without the loading
    overlay, exactly one chip is selected, and the badge it carries is the
    printed number of markers held; no other chip has a badge. *)
Theorem badge_counts_markers (st : State) :
  reachable st ->
  mounted st = true -> isLoading st = false -> mapError st = None ->
  render st = MapScreen false (filterBar (selectedCategory st))
  /\ List.length (filter chip_selected (filterBar (selectedCategory st))) = 1
  /\ Forall (fun chip =>
               chip_badge chip
               = if chip_selected chip
                 then Some (number_text (List.length (markersRef st)))
                 else None)
            (filterBar (selectedCategory st)).
Proof.
  intros Hr Hmo Hl He.
  destruct (reachable_sync st Hr) as [_ Hf].
  rewrite (follows_length st (Hf Hmo Hl He)).
  split; [|apply and_comm, filterBar_badges].
  unfold render. now rewrite He, Hl.
Qed.

(** X14. In every reachable state, in error or not, the held markers have
    distinct handles, are at most as many as the store has POIs, and are
    either none or the markers of one filter: one per POI of that filter, in
    store order. *)
Theorem marker_set_of_some_filter (st : State) :
  reachable st ->
  NoDup (map marker_handle (markersRef st))
  /\ List.length (markersRef st) <= List.length PARIS_POIS
  /\ (markersRef st = []
      \/ exists f, map marker_poi (markersRef st) = map Some (filteredPOIs f)).
Proof.
  intros Hr. destruct (reachable_sync st Hr) as [Hs _].
  split; [apply (sync_nodup st Hs) | split; [|apply (sync_some_filter st Hs)]].
  destruct (sync_some_filter st Hs) as [-> | [f Hf]]; [simpl; lia|].
  rewrite <- (length_map marker_poi), Hf, length_map. apply filteredPOIs_length_le.
Qed.

(** ** The load and the failure of the map *)

Lemma commit_containerRef (prev st : State) :
  containerRef (commit prev st)
  = match render st with
    | ErrorPanel _ _ => None
    | MapScreen _ _ => Some map_container
    end.
Proof.
  unfold commit. destruct (_ || _); [|reflexivity].
  unfold markersEffect. cbn [mapRef isLoading set_containerRef].
  destruct (mapRef st); [|reflexivity].
  destruct (negb (isLoading st)); [|reflexivity].
  now rewrite (proj1 (proj2 (addMarkers_frame _ _))).
Qed.

Lemma not_loaded_yet (st : State) (m : nat) :
  sync st -> mapRef st = Some m -> isLoading st = true ->
  existsb (Nat.eqb m) (loaded_maps (world st)) = false.
Proof.
  intros Hs Hm Hl. destruct (existsb _ _) eqn:Hex; [|reflexivity].
  apply existsb_exists in Hex. destruct Hex as [x [Hin Heq]].
  apply Nat.eqb_eq in Heq. subst x.
  rewrite (sync_loaded st Hs m Hm Hin) in Hl. discriminate.
Qed.

(** X6. When the map of a mounted component that is loading, and not in
    error, fires [load], the component leaves the loading state, stays free
    of error, keeps its selection, renders the map screen without the
    overlay, and holds the markers of the selected category: those of the
    chip clicked last during the loading, not those of ['all'] which the
    load handler itself builds. *)
Theorem load_shows_selection (st : State) :
  reachable st ->
  mounted st = true -> isLoading st = true -> mapError st = None ->
  exists st',
    step MapLoad st = Some st'
    /\ isLoading st' = false
    /\ mapError st' = None
    /\ selectedCategory st' = selectedCategory st
    /\ render st' = MapScreen false (filterBar (selectedCategory st))
    /\ map marker_poi (markersRef st') = map Some (filteredPOIs (selectedCategory st)).
Proof.
  intros Hr Hmo Hl He.
  destruct (reachable_sync st Hr) as [Hs Hf]. apply reachable_inv in Hr.
  destruct (mapRef st) as [m|] eqn:Hm.
  2:{ destruct (inv_error st Hr Hm Hmo) as [ch [rest Ht]]. congruence. }
  destruct (step MapLoad st) as [st'|] eqn:Hstep.
  2:{ unfold step in Hstep. rewrite Hmo, Hm in Hstep. cbn [negb] in Hstep.
      rewrite (not_loaded_yet st m Hs Hm Hl) in Hstep. discriminate. }
  destruct (step_sync MapLoad st st' Hr Hs Hf Hstep) as [_ Hf'].
  destruct (step_no_regress MapLoad st st' Hstep) as [Hsel _].
  cbn [last_selection] in Hsel.
  assert (Hfacts : isLoading st' = false /\ mapError st' = None /\ mounted st' = true).
  { unfold step in Hstep. rewrite Hmo, Hm in Hstep. cbn [negb] in Hstep.
    rewrite (not_loaded_yet st m Hs Hm Hl) in Hstep. injection Hstep as <-.
    set (st0 := set_world (mark_loaded m (world st)) st).
    assert (Hh0 : map_handlers (world st0) = [(m, OnLoad all); (m, OnError)]).
    { simpl. rewrite (sync_handlers st Hs), Hm. reflexivity. }
    rewrite (fire_load_eq m all st0 Hh0). unfold onLoad.
    set (st1 := set_world (log "Map loaded successfully" (world (setIsLoading false st0)))
                          (setIsLoading false st0)).
    destruct (commit_rebuild_frame st (addMarkers all st1)) as [_ [Fe [Fl [_ [Fmo _]]]]].
    destruct (addMarkers_rebuild_frame all st1) as [_ [Ge [Gl [_ [Gmo _]]]]].
    rewrite Fe, Fl, Fmo, Ge, Gl, Gmo. simpl. auto. }
  destruct Hfacts as [Hl' [He' Hmo']].
  exists st'. split; [reflexivity|].
  split; [exact Hl' | split; [exact He' | split; [exact Hsel|]]].
  split.
  - unfold render. now rewrite He', Hl', Hsel.
  - rewrite <- Hsel. now apply Hf'.
Qed.

(** X7. When the map of a reachable mounted component fires [error], the
    error panel with the message of the load failure is rendered and the
    container leaves the page, the loading state ends, and the map is not
    released: it stays referenced and in existence until the teardown. If
    the map had loaded before, the markers stay as they were. *)
Theorem failure_shows_panel (st : State) (m : nat) :
  reachable st ->
  mounted st = true -> mapRef st = Some m ->
  exists st',
    step MapFailure st = Some st'
    /\ mapError st' = Some "Failed to load map"
    /\ render st' = ErrorPanel "Map Error" "Failed to load map"
    /\ containerRef st' = None
    /\ isLoading st' = false
    /\ mapRef st' = Some m
    /\ live_maps (world st') = [m]
    /\ (isLoading st = false ->
        markersRef st' = markersRef st
        /\ dom_markers (world st') = dom_markers (world st)).
Proof.
  intros Hr Hmo Hm.
  destruct (reachable_sync st Hr) as [Hs _]. apply reachable_inv in Hr.
  assert (Hh : map_handlers (world st) = [(m, OnLoad all); (m, OnError)]).
  { rewrite (sync_handlers st Hs), Hm. reflexivity. }
  exists (commit st (onError st)).
  split.
  { unfold step. rewrite Hmo, Hm. cbn [negb]. now rewrite (fire_error_eq m all st Hh). }
  destruct (commit_rebuild_frame st (onError st))
    as [Fm [Fe [Fl [_ [_ [_ [Flive _]]]]]]].
  assert (He' : mapError (commit st (onError st)) = Some "Failed to load map")
    by (rewrite Fe; reflexivity).
  split; [exact He'|].
  split; [unfold render; now rewrite He'|].
  split; [now rewrite commit_containerRef|].
  split; [now rewrite Fl|].
  split; [rewrite Fm; exact Hm|].
  split; [rewrite Flive; simpl; now rewrite (inv_maps st Hr), Hm|].
  intros Hl. unfold commit.
  cbn [selectedCategory isLoading onError setIsLoading setMapError set_world set_containerRef].
  rewrite (proj2 (category_eqb_eq _ _) eq_refl), Hl. now cbn.
Qed.

Lemma step_no_map (ev : Event) (st st' : State) :
  inv st -> mapRef st = None -> step ev st = Some st' ->
  mapRef st' = None /\ mapError st' = mapError st /\ isLoading st' = isLoading st.
Proof.
  intros Hinv Hm. unfold step.
  destruct (mounted st) eqn:Hmo; simpl; [|discriminate].
  destruct (render_truthy st (inv_error st Hinv Hm Hmo)) as [h [msg Hrender]].
  destruct ev as [| |c|ty h'|throws|]; rewrite ?Hm, ?Hrender; try discriminate.
  - intros [= <-]. rewrite inv_initEffect by assumption.
    destruct (commit_rebuild_frame st st) as [Fm [Fe [Fl _]]].
    now rewrite Fm, Fe, Fl.
  - intros [= <-]. unfold cleanup, clearMarkers.
    cbn [mapRef set_containerRef set_markersRef set_world cleanup_held]. rewrite Hm.
    now destruct (cleanup_held st).
Qed.

(** X9. A constructor failure is final for the mount: after any sequence of
    events on a component whose map constructor raised, there is still no
    map, referenced or in existence, no marker held or on a page, the
    loading state is over, and the render is the error panel with the
    message of the initialization failure. Invoking the initialization
    effect again does not retry. *)
Theorem constructor_failure_is_terminal (evs : list Event) (st : State) :
  run evs (mount true empty_world) = Some st ->
  mapRef st = None
  /\ live_maps (world st) = []
  /\ markersRef st = []
  /\ dom_markers (world st) = []
  /\ isLoading st = false
  /\ render st = ErrorPanel "Map Error" "Failed to initialize map".
Proof.
  intros Hrun.
  assert (Hinv : inv st) by (apply reachable_inv; now exists true, evs).
  assert (Hgen : forall evs s s',
             inv s -> mapRef s = None -> run evs s = Some s' ->
             mapRef s' = None /\ mapError s' = mapError s /\ isLoading s' = isLoading s).
  { clear. induction evs as [|ev evs IH]; intros s s' Hinv Hm; simpl.
    - now intros [= <-].
    - destruct (step ev s) as [s1|] eqn:Hs; [|discriminate]. intros Hrun.
      destruct (step_no_map ev s s1 Hinv Hm Hs) as [Hm1 [He1 Hl1]].
      destruct (IH s1 s' (step_inv ev s s1 Hinv Hs) Hm1 Hrun) as [Hm' [He' Hl']].
      repeat split; congruence. }
  destruct (Hgen evs _ st (inv_mount true) eq_refl Hrun) as [Hm [He Hl]].
  split; [exact Hm|].
  split; [rewrite (inv_maps st Hinv), Hm; reflexivity|].
  split; [exact (inv_no_map st Hinv Hm)|].
  split; [rewrite (inv_dom st Hinv), Hm; reflexivity|].
  split; [rewrite Hl; reflexivity|].
  unfold render. rewrite He. reflexivity.
Qed.

(** ** Popups in reachable states *)

Lemma markers_from_built (pois : list POI) (mk : Marker) :
  forall n, In mk (markers_from n pois) ->
            exists poi, In poi pois /\ built_for poi mk.
Proof.
  induction pois as [|p rest IH]; intros n; simpl; [tauto|].
  intros [<- | Hin].
  - exists p. split; [now left | split; reflexivity].
  - destruct (IH (S (S n)) Hin) as [poi [Hp Hb]]. exists poi. split; [now right | exact Hb].
Qed.

Lemma popups_ok_transfer (s st : State) :
  markersRef s = markersRef st ->
  open_popups (world s) = open_popups (world st) ->
  popups_ok st -> popups_ok s.
Proof.
  intros Hk Hp [P1 P2]. constructor; rewrite ?Hk, ?Hp; assumption.
Qed.

Lemma popups_ok_addMarkers (f : POICategory) (st : State) :
  popups_ok st -> popups_ok (addMarkers f st).
Proof.
  intros Hok. destruct (mapRef st) as [m|] eqn:Hm.
  - destruct Hok as [P1 P2]. rewrite (addMarkers_eq f st m Hm). constructor.
    + cbn [markersRef set_markersRef]. intros mk Hin.
      destruct (markers_from_built _ mk _ Hin) as [poi [Hp Hb]].
      exists poi. split; [|exact Hb]. now apply filteredPOIs_passes in Hp.
    + exact P2.
  - now rewrite addMarkers_no_map.
Qed.

Lemma popups_ok_markersEffect (st : State) : popups_ok st -> popups_ok (markersEffect st).
Proof.
  intros Hok. unfold markersEffect. destruct (mapRef st); [|assumption].
  destruct (negb (isLoading st)); [now apply popups_ok_addMarkers | assumption].
Qed.

Lemma popups_ok_commit (prev st : State) : popups_ok st -> popups_ok (commit prev st).
Proof.
  intros Hok. unfold commit.
  set (st1 := set_containerRef _ st).
  assert (H1 : popups_ok st1) by (apply (popups_ok_transfer st1 st); trivial).
  destruct (_ || _); [now apply popups_ok_markersEffect | assumption].
Qed.

Lemma popups_ok_onLoad (sel : POICategory) (st : State) : popups_ok st -> popups_ok (onLoad sel st).
Proof.
  intros Hok. unfold onLoad. apply popups_ok_addMarkers.
  apply (popups_ok_transfer _ st); trivial.
Qed.

Lemma popups_ok_onError (st : State) : popups_ok st -> popups_ok (onError st).
Proof. intros Hok. apply (popups_ok_transfer _ st); trivial. Qed.

Lemma dispatch_listeners (ty : EventType) (mk mk' : Marker) (st : State) :
  marker_handle mk = marker_handle mk' ->
  listeners (marker_element mk) = listeners (marker_element mk') ->
  dispatch ty mk st = dispatch ty mk' st.
Proof. intros Hh Hl. unfold dispatch. now rewrite Hh, Hl. Qed.

(** What the listeners do on a marker built for [poi]. *)
Lemma dispatch_built (ty : EventType) (poi : POI) (mk : Marker) (st : State) :
  built_for poi mk ->
  dispatch ty mk st
  = match ty with
    | mouseenter => (set_transform (marker_handle mk) "scale(1.2)" st, false)
    | mouseleave => (set_transform (marker_handle mk) "scale(1)" st, false)
    | click =>
        match mapRef st with
        | Some m =>
            (set_world (Popup_addTo m (coordinates poi)
                          (popup_at (marker_handle mk) poi) (world st)) st, false)
        | None => (st, true)
        end
    end.
Proof.
  intros [Hl _].
  rewrite (dispatch_listeners ty mk (marker_at (marker_handle mk) poi) st eq_refl Hl).
  destruct ty; reflexivity.
Qed.

Lemma popups_ok_set_transform (h : nat) (v : string) (st : State) :
  popups_ok st -> popups_ok (set_transform h v st).
Proof.
  intros [P1 P2]. constructor; [|exact P2].
  unfold set_transform. cbn [markersRef set_markersRef].
  intros mk Hin. apply in_map_iff in Hin. destruct Hin as [x [Hx Hin]].
  destruct (P1 x Hin) as [poi [Hp Hb]]. exists poi. split; [assumption|].
  destruct (marker_handle x =? h); subst mk; exact Hb.
Qed.

(** The map in whose container a marker element sits is the referenced
    one. *)
Lemma inv_dom_map (st : State) (e : nat * nat) :
  inv st -> In e (dom_markers (world st)) -> mapRef st = Some (fst e).
Proof.
  intros Hinv He. rewrite (inv_dom st Hinv) in He.
  destruct (mapRef st) as [m|]; [|contradiction].
  apply in_map_iff in He. now destruct He as [mk [<- _]].
Qed.

(** A click on a built marker, once it has gone on to the map: the popup
    the listener opened is closed again. *)
Lemma click_opens_then_closes (poi : POI) (mk : Marker) (st : State) (m : nat) :
  built_for poi mk -> mapRef st = Some m -> open_popups (world st) = [] ->
  bubble click m (fst (dispatch click mk st))
  = set_world
      (Map_click m (Popup_addTo m (coordinates poi)
                      (popup_at (marker_handle mk) poi) (world st))) st
  /\ open_popups (world (bubble click m (fst (dispatch click mk st)))) = [].
Proof.
  intros Hb Hm Hnone. rewrite (dispatch_built click poi mk st Hb), Hm.
  split; [reflexivity|].
  cbn [fst bubble world set_world Map_click Popup_addTo Popup_remove with_open_popups
       open_popups].
  rewrite Hnone. simpl. now rewrite Nat.eqb_refl.
Qed.

Lemma popups_ok_marker_event (ty : EventType) (mk : Marker) (e : nat * nat) (st : State) :
  inv st -> popups_ok st ->
  In mk (markersRef st) -> In e (dom_markers (world st)) ->
  popups_ok (bubble ty (fst e) (fst (dispatch ty mk st))).
Proof.
  intros Hinv Hok Hin He.
  destruct (held_built st Hok mk Hin) as [poi [Hp Hb]].
  pose proof (inv_dom_map st e Hinv He) as Hm.
  destruct ty.
  - rewrite (dispatch_built mouseenter poi mk st Hb). now apply popups_ok_set_transform.
  - rewrite (dispatch_built mouseleave poi mk st Hb). now apply popups_ok_set_transform.
  - destruct (click_opens_then_closes poi mk st (fst e) Hb Hm (none_open st Hok))
      as [Heq Hnone].
    constructor; [|exact Hnone].
    rewrite Heq. exact (held_built st Hok).
Qed.

Lemma popups_ok_unmount (st : State) :
  popups_ok st ->
  popups_ok (set_mounted false (set_cleanup_held false (cleanup (set_containerRef None st)))).
Proof.
  intros [P1 P2]. unfold cleanup. rewrite clearMarkers_eq.
  cbn [mapRef markersRef world set_containerRef set_markersRef set_world].
  destruct (mapRef st) as [m|] eqn:Hm; constructor;
    cbn [mapRef markersRef world set_mounted set_cleanup_held set_mapRef set_markersRef
         set_world Map_remove with_dom_markers open_popups];
    try (intros mk []); rewrite ?P2; reflexivity.
Qed.

Lemma step_popups_ok (ev : Event) (st st' : State) :
  inv st -> sync st -> popups_ok st -> step ev st = Some st' -> popups_ok st'.
Proof.
  intros Hinv Hs Hok. unfold step.
  destruct (mounted st) eqn:Hmo; simpl; [|discriminate].
  destruct ev as [| |c|ty h|throws|].
  - destruct (mapRef st) as [m|] eqn:Hm; [|discriminate].
    destruct (existsb _ _); [discriminate|]. intros [= <-].
    set (st0 := set_world (mark_loaded m (world st)) st).
    assert (Hh0 : map_handlers (world st0) = [(m, OnLoad all); (m, OnError)]).
    { simpl. rewrite (sync_handlers st Hs), Hm. reflexivity. }
    rewrite (fire_load_eq m all st0 Hh0).
    apply popups_ok_commit, popups_ok_onLoad.
    apply (popups_ok_transfer st0 st); trivial.
  - destruct (mapRef st) as [m|] eqn:Hm; [|discriminate]. intros [= <-].
    assert (Hh : map_handlers (world st) = [(m, OnLoad all); (m, OnError)]).
    { rewrite (sync_handlers st Hs), Hm. reflexivity. }
    rewrite (fire_error_eq m all st Hh).
    now apply popups_ok_commit, popups_ok_onError.
  - destruct (render st); [discriminate|]. intros [= <-].
    apply popups_ok_commit. apply (popups_ok_transfer _ st); trivial.
  - destruct (render st); [discriminate|].
    destruct (find _ (dom_markers _)) as [e|] eqn:He; [|discriminate].
    destruct (find _ (markersRef st)) as [mk|] eqn:Hfind; [|discriminate].
    intros [= <-]. apply find_some in He, Hfind.
    now apply popups_ok_marker_event.
  - intros [= <-]. rewrite inv_initEffect by assumption.
    now apply popups_ok_commit.
  - cbn [cleanup_held set_containerRef].
    rewrite (inv_cleanup st Hinv Hmo). intros [= <-].
    now apply popups_ok_unmount.
Qed.

Lemma popups_ok_mount (throws : bool) : popups_ok (mount throws empty_world).
Proof. destruct throws; constructor; simpl; try reflexivity; intros x []. Qed.

Lemma reachable_popups_ok (st : State) : reachable st -> popups_ok st.
Proof.
  intros [throws [evs Hrun]].
  destruct (sync_mount throws) as [Hs Hf].
  revert Hrun. generalize (inv_mount throws) Hs Hf (popups_ok_mount throws).
  generalize (mount throws empty_world). revert st.
  induction evs as [|ev evs IH]; intros st s0 Hinv0 Hs0 Hf0 Hok0; simpl.
  - now intros [= <-].
  - destruct (step ev s0) as [s1|] eqn:Hstep; [|discriminate].
    destruct (step_sync ev s0 s1 Hinv0 Hs0 Hf0 Hstep) as [Hs1 Hf1].
    apply IH; try assumption.
    + now apply (step_inv ev s0).
    + now apply (step_popups_ok ev s0).
Qed.

Lemma find_by_handle (mks : list Marker) (mk : Marker) :
  NoDup (map marker_handle mks) -> In mk mks ->
  find (fun x => marker_handle x =? marker_handle mk) mks = Some mk.
Proof.
  induction mks as [|x rest IH]; simpl; [tauto|].
  intros Hnd [-> | Hin].
  - now rewrite Nat.eqb_refl.
  - inversion Hnd as [|? ? Hnotin Hnd']; subst.
    destruct (marker_handle x =? marker_handle mk) eqn:E.
    + apply Nat.eqb_eq in E. exfalso. apply Hnotin. rewrite E. now apply in_map.
    + now apply IH.
Qed.

Lemma find_in_dom (m : nat) (mks : list Marker) (mk : Marker) :
  In mk mks ->
  exists e,
    find (fun e => snd e =? marker_handle mk) (map (fun x => (m, marker_handle x)) mks)
    = Some e
    /\ fst e = m.
Proof.
  induction mks as [|x rest IH]; simpl; [tauto|].
  intros Hin. destruct (marker_handle x =? marker_handle mk) eqn:E.
  - now exists (m, marker_handle x).
  - destruct Hin as [-> | Hin]; [now rewrite Nat.eqb_refl in E | now apply IH].
Qed.

(** X15. No popup stays open. Every popup is opened by the click listener
    of a marker, with the default [closeOnClick], and the listener does not
    stop the click; once the click has gone on to the map the popup is
    closed. So in every reachable state, between events, no popup is
    open. *)
Theorem no_popup_stays_open (st : State) :
  reachable st -> open_popups (world st) = [].
Proof.
  intros Hr. exact (none_open st (reachable_popups_ok st Hr)).
Qed.

(** X16. In every reachable state the click listener of each held marker
    finds a map to add its popup to, so it does not raise, and what it opens
    is the popup made for the marker's POI, a POI of the store, on the
    referenced map at the coordinates of that POI. As an event, in a state
    without error, the click on a held marker can happen; when it has gone
    on from the listener to the map, that popup is closed again, and the
    markers, the selection and the other state cells are as before. *)
Theorem held_marker_click (st : State) (mk : Marker) :
  reachable st ->
  In mk (markersRef st) ->
  exists m poi,
    mapRef st = Some m
    /\ In poi PARIS_POIS
    /\ marker_poi mk = Some poi
    /\ marker_lngLat mk = Some (coordinates poi)
    /\ dispatch click mk st
       = (set_world (Popup_addTo m (coordinates poi)
                       (popup_at (marker_handle mk) poi) (world st)) st, false)
    /\ (mapError st = None ->
        step (MarkerEvent click (marker_handle mk)) st
        = Some (set_world
                  (Map_click m (Popup_addTo m (coordinates poi)
                                  (popup_at (marker_handle mk) poi) (world st))) st)
        /\ open_popups
             (Map_click m (Popup_addTo m (coordinates poi)
                             (popup_at (marker_handle mk) poi) (world st))) = []).
Proof.
  intros Hr Hin.
  destruct (reachable_popups_ok st Hr) as [P1 P2].
  destruct (reachable_sync st Hr) as [Hs _]. apply reachable_inv in Hr.
  destruct (P1 mk Hin) as [poi [Hp Hb]].
  destruct (mapRef st) as [m|] eqn:Hm.
  2:{ rewrite (inv_no_map st Hr Hm) in Hin. contradiction. }
  assert (Hmo : mounted st = true).
  { destruct (mounted st) eqn:Hmo; [reflexivity|].
    rewrite (inv_unmounted st Hr Hmo) in Hm. discriminate. }
  assert (Hd : dispatch click mk st
               = (set_world (Popup_addTo m (coordinates poi)
                               (popup_at (marker_handle mk) poi) (world st)) st, false)).
  { rewrite (dispatch_built click poi mk st Hb). now rewrite Hm. }
  destruct (click_opens_then_closes poi mk st m Hb Hm P2) as [Heq Hnone].
  exists m, poi.
  split; [reflexivity | split; [exact Hp | split; [|split; [apply Hb | split; [exact Hd|]]]]].
  - unfold marker_poi. destruct Hb as [Hl _]. now rewrite Hl.
  - intros He. split.
    + unfold step, render. rewrite Hmo, He. cbn [negb].
      rewrite (inv_dom st Hr), Hm.
      destruct (find_in_dom m (markersRef st) mk Hin) as [e [Hfe Hfst]].
      rewrite Hfe, (find_by_handle _ mk (sync_nodup st Hs) Hin), Hfst.
      now rewrite Heq.
    + rewrite Heq in Hnone. exact Hnone.
Qed.

(** ** The further properties at concrete states *)

Lemma browsing_example_step : step (ChipClick art) loaded_example = Some browsing_example.
Proof. vm_compute. reflexivity. Defined.

Lemma browsing_example_run : run [ChipClick art] loaded_example = Some browsing_example.
Proof. vm_compute. reflexivity. Defined.

Lemma failed_example_truthy : truthy (mapError failed_example).
Proof. exists "F"%char, "ailed to initialize map". vm_compute. reflexivity. Defined.

Lemma failed_unmounted_run :
  run [RunInit false; Unmount] (mount true empty_world) = Some failed_unmounted.
Proof. vm_compute. reflexivity. Defined.

Lemma markers_follow_selection_witness :
  reachable loaded_example
  /\ mounted loaded_example = true
  /\ isLoading loaded_example = false
  /\ mapError loaded_example = None
  /\ List.length (markersRef loaded_example) = poi_count (selectedCategory loaded_example).
Proof.
  split; [exact loaded_example_reachable | split; [exact loaded_example_mounted|]].
  split; [exact loaded_example_loaded | split; [exact loaded_example_no_error|]].
  destruct (markers_follow_selection loaded_example loaded_example_reachable
              loaded_example_mounted loaded_example_loaded loaded_example_no_error)
    as [_ [Hcount _]].
  exact Hcount.
Defined.

Lemma badge_counts_markers_witness :
  reachable loaded_example
  /\ mounted loaded_example = true
  /\ isLoading loaded_example = false
  /\ mapError loaded_example = None
  /\ render loaded_example = MapScreen false (filterBar (selectedCategory loaded_example)).
Proof.
  split; [exact loaded_example_reachable | split; [exact loaded_example_mounted|]].
  split; [exact loaded_example_loaded | split; [exact loaded_example_no_error|]].
  destruct (badge_counts_markers loaded_example loaded_example_reachable
              loaded_example_mounted loaded_example_loaded loaded_example_no_error)
    as [Hrender _].
  exact Hrender.
Defined.

Lemma marker_set_of_some_filter_witness :
  reachable loaded_example
  /\ List.length (markersRef loaded_example) <= List.length PARIS_POIS.
Proof.
  split; [exact loaded_example_reachable|].
  destruct (marker_set_of_some_filter loaded_example loaded_example_reachable)
    as [_ [Hle _]].
  exact Hle.
Defined.

Lemma load_shows_selection_witness :
  reachable loading_example
  /\ mounted loading_example = true
  /\ isLoading loading_example = true
  /\ mapError loading_example = None
  /\ exists st',
       step MapLoad loading_example = Some st'
       /\ isLoading st' = false
       /\ map marker_poi (markersRef st')
          = map Some (filteredPOIs (selectedCategory loading_example)).
Proof.
  assert (Hmo : mounted loading_example = true) by (vm_compute; reflexivity).
  assert (He : mapError loading_example = None) by (vm_compute; reflexivity).
  split; [exact loading_example_reachable | split; [exact Hmo|]].
  split; [exact loading_example_loading | split; [exact He|]].
  destruct (load_shows_selection loading_example loading_example_reachable
              Hmo loading_example_loading He) as [st' [H1 [H2 [_ [_ [_ H6]]]]]].
  exists st'. repeat split; assumption.
Defined.

Lemma failure_shows_panel_witness :
  reachable loaded_example
  /\ mounted loaded_example = true
  /\ mapRef loaded_example = Some 0
  /\ exists st',
       step MapFailure loaded_example = Some st'
       /\ render st' = ErrorPanel "Map Error" "Failed to load map"
       /\ live_maps (world st') = [0]
       /\ markersRef st' = markersRef loaded_example.
Proof.
  split; [exact loaded_example_reachable | split; [exact loaded_example_mounted|]].
  split; [exact loaded_example_map|].
  destruct (failure_shows_panel loaded_example 0 loaded_example_reachable
              loaded_example_mounted loaded_example_map)
    as [st' [H1 [_ [H3 [_ [_ [_ [H7 H8]]]]]]]].
  exists st'. repeat split; try assumption.
  apply (H8 loaded_example_loaded).
Defined.

Lemma error_is_terminal_witness :
  truthy (mapError failed_example)
  /\ run [RunInit false; Unmount] failed_example = Some failed_unmounted
  /\ truthy (mapError failed_unmounted).
Proof.
  split; [exact failed_example_truthy | split; [exact failed_unmounted_run|]].
  destruct (error_is_terminal [RunInit false; Unmount] failed_example failed_unmounted
              failed_example_truthy failed_unmounted_run) as [Ht _].
  exact Ht.
Defined.

Lemma constructor_failure_is_terminal_witness :
  run [RunInit false; Unmount] (mount true empty_world) = Some failed_unmounted
  /\ mapRef failed_unmounted = None
  /\ live_maps (world failed_unmounted) = [].
Proof.
  split; [exact failed_unmounted_run|].
  destruct (constructor_failure_is_terminal [RunInit false; Unmount] failed_unmounted
              failed_unmounted_run) as [H1 [H2 _]].
  split; assumption.
Defined.

Lemma selection_is_last_chip_witness :
  run [ChipClick art] loaded_example = Some browsing_example
  /\ selectedCategory browsing_example = art.
Proof.
  split; [exact browsing_example_run|].
  exact (selection_is_last_chip [ChipClick art] loaded_example browsing_example
           browsing_example_run).
Defined.

Lemma loading_never_returns_witness :
  run [ChipClick art] loaded_example = Some browsing_example
  /\ isLoading loaded_example = false
  /\ isLoading browsing_example = false.
Proof.
  split; [exact browsing_example_run | split; [exact loaded_example_loaded|]].
  exact (loading_never_returns [ChipClick art] loaded_example browsing_example
           browsing_example_run loaded_example_loaded).
Defined.

Lemma rebuild_touches_markers_only_witness :
  step (ChipClick art) loaded_example = Some browsing_example
  /\ selectedCategory browsing_example = art
  /\ rebuild_frame browsing_example (setSelectedCategory art loaded_example).
Proof.
  split; [exact browsing_example_step|].
  destruct (rebuild_touches_markers_only art loaded_example) as [_ [_ Hclick]].
  exact (Hclick browsing_example browsing_example_step).
Defined.

Lemma loaded_example_first_marker :
  In (hd (marker_at 0 first_poi) (markersRef loaded_example)) (markersRef loaded_example).
Proof. vm_compute. left. reflexivity. Defined.

Lemma clicked_example_reachable : reachable clicked_example.
Proof. exists false, [MapLoad; MarkerEvent click 17]. vm_compute. reflexivity. Defined.

Lemma held_marker_click_witness :
  reachable loaded_example
  /\ In (hd (marker_at 0 first_poi) (markersRef loaded_example)) (markersRef loaded_example)
  /\ mapError loaded_example = None
  /\ exists m poi,
       mapRef loaded_example = Some m
       /\ In poi PARIS_POIS
       /\ marker_poi (hd (marker_at 0 first_poi) (markersRef loaded_example)) = Some poi
       /\ open_popups
            (Map_click m
               (Popup_addTo m (coordinates poi)
                  (popup_at (marker_handle
                               (hd (marker_at 0 first_poi) (markersRef loaded_example))) poi)
                  (world loaded_example))) = [].
Proof.
  split; [exact loaded_example_reachable | split; [exact loaded_example_first_marker|]].
  split; [exact loaded_example_no_error|].
  destruct (held_marker_click loaded_example _ loaded_example_reachable
              loaded_example_first_marker)
    as [m [poi [H1 [H2 [H3 [_ [_ H6]]]]]]].
  exists m, poi. repeat split; try assumption.
  exact (proj2 (H6 loaded_example_no_error)).
Defined.

Lemma no_popup_stays_open_witness :
  reachable clicked_example
  /\ open_popups (world clicked_example) = [].
Proof.
  split; [exact clicked_example_reachable|].
  exact (no_popup_stays_open clicked_example clicked_example_reachable).
Defined.
